(** * libhaloc: image hashes for loop-closure detection

    A shallow embedding of [src/hash.cc] (class [haloc::Hash]) and
    [src/haloc.cc] (class [haloc::Haloc]), followed by the properties the
    specification states about them.

    - C++ [float] is IEEE-754 binary32 and [double] is binary64; both are
      values of [spec_float], operated on with the operations of
      [SpecFloat] at precision 24/128 and 53/1024. A NaN is the single
      value [S754_nan]: the sign and payload bits of a NaN are not
      represented.
    - [int] and [uint] are 32 bits wide, [size_t] 64 bits; conversions
      between them are written out with [to_uint], [to_int], [to_size_t].
    - [std::vector<float>] is [list float]; [std::map<uint, V>] is an
      association list kept in ascending key order, which is the order a
      [std::map] iterates in.
    - What the library gets from outside (libc's [rand], the STL's
      [random_shuffle], Eigen's QR solver, OpenCV's SIFT and images) is the
      interface [Platform]. Its operations are functions: an exception
      raised inside the feature extractor is not represented.
    - A C++ exception leaving a member function is the outcome [Throw]. *)

From Stdlib Require Import ZArith Bool Lia Sorted.
From Stdlib Require Import Floats.SpecFloat.
From stdpp Require Import base list.

Open Scope Z_scope.

(** ** Floating point *)

Module FP.

Definition float := spec_float.
Definition double := spec_float.

Definition fadd : float -> float -> float := SFadd 24 128.
Definition fsub : float -> float -> float := SFsub 24 128.
Definition fmul : float -> float -> float := SFmul 24 128.
Definition fdiv : float -> float -> float := SFdiv 24 128.
Definition fopp : float -> float := SFopp.

Definition dadd : double -> double -> double := SFadd 53 1024.
Definition dmul : double -> double -> double := SFmul 53 1024.
Definition ddiv : double -> double -> double := SFdiv 53 1024.
Definition dsqrt : double -> double := SFsqrt 53 1024.

(** Implicit promotion [float -> double]: exact, the mantissa is only
    re-aligned to the 53-bit format. *)
Definition to_double (x : float) : double :=
  match x with
  | S754_finite s m e => binary_round 53 1024 s m e
  | _ => x
  end.

(** Conversion [double -> float]: rounds to nearest, ties to even. *)
Definition to_float (x : double) : float :=
  match x with
  | S754_finite s m e => binary_round 24 128 s m e
  | _ => x
  end.

(** [static_cast<float>(k)] for an integer [k]. *)
Definition float_of_int (k : Z) : float := binary_normalize 24 128 k 0 false.

(** A [double] literal with an integer value, such as [1.0] or [2.0]. *)
Definition double_lit (k : Z) : double := binary_normalize 53 1024 k 0 false.

(** [float x = 0.0]. *)
Definition f_zero : float := S754_zero false.

(** [pow(x, 2.0)] on a [double]: the square of [x]. *)
Definition dpow2 (x : double) : double := dmul x x.

(** [sqrt(x)] called on a [float] and stored in a [float]: the argument is
    promoted, the root taken in [double] and the result converted back. *)
Definition sqrt_float (x : float) : float := to_float (dsqrt (to_double x)).

(** Comparisons [a < b] and [a <= b]; false as soon as one side is NaN. *)
Definition flt : spec_float -> spec_float -> bool := SFltb.
Definition fle : spec_float -> spec_float -> bool := SFleb.

Definition is_nan (x : spec_float) : bool :=
  match x with S754_nan => true | _ => false end.

(** A number that is neither NaN nor an infinity. *)
Definition is_finite (x : spec_float) : bool :=
  match x with S754_zero _ | S754_finite _ _ _ => true | _ => false end.

End FP.
Import FP.

(** The sign carried by a number; NaN carries none. *)
Definition has_sign (s : bool) (x : spec_float) : Prop :=
  match x with
  | S754_nan => False
  | S754_zero s' | S754_infinity s' | S754_finite s' _ _ => s' = s
  end.

(** Not below zero: NaN, a zero of either sign, or a positive number. *)
Definition not_below_zero (x : spec_float) : Prop :=
  match x with
  | S754_nan | S754_zero _ => True
  | S754_infinity s | S754_finite s _ _ => s = false
  end.

(** A vector of numbers, none of them NaN or infinite. *)
Definition all_finite (v : list float) : bool := forallb is_finite v.

(** Equal up to the sign: the same magnitude. *)
Definition same_magnitude (u v : spec_float) : Prop :=
  match u, v with
  | S754_nan, S754_nan => True
  | S754_zero _, S754_zero _ => True
  | S754_infinity _, S754_infinity _ => True
  | S754_finite _ m e, S754_finite _ m' e' => m = m' /\ e = e'
  | _, _ => False
  end.

(** A zero of either sign. *)
Definition is_zero (x : spec_float) : bool :=
  match x with S754_zero _ => true | _ => false end.

(** ** Machine integers *)

Definition to_uint (z : Z) : Z := z mod 2 ^ 32.
Definition to_size_t (z : Z) : Z := z mod 2 ^ 64.
Definition to_int (z : Z) : Z :=
  let u := to_uint z in if u <? 2 ^ 31 then u else u - 2 ^ 32.

(** ** Exceptions *)

Inductive result (A : Type) : Type :=
  | Ok (a : A)
  | Throw.
Arguments Ok {A} a.
Arguments Throw {A}.

#[export] Instance result_ret : MRet result := fun A a => Ok a.
#[export] Instance result_bind : MBind result := fun A B f r =>
  match r with
  | Ok a => f a
  | Throw => Throw
  end.

(** ** [cv::Mat] holding [float] descriptors, one row per keypoint *)

Record Mat := mkMat { cols : nat; data : list (list float) }.

Definition rows (M : Mat) : nat := length (data M).

(** [M.at<float>(m, n)] *)
Definition at_ (M : Mat) (m n : nat) : float := nth n (nth m (data M) []) f_zero.

(** ** [std::map<uint, V>] *)

Module StdMap.
Section Ops.
Context {V : Type}.

Definition t := list (N * V).

(** [m[k] = v] *)
Fixpoint insert (k : N) (v : V) (m : t) : t :=
  match m with
  | [] => [(k, v)]
  | (k', v') :: rest =>
      if (k <? k')%N then (k, v) :: m
      else if (k =? k')%N then (k, v) :: rest
      else (k', v') :: insert k v rest
  end.

(** [m.find(k)] *)
Fixpoint find (k : N) (m : t) : option V :=
  match m with
  | [] => None
  | (k', v') :: rest => if (k =? k')%N then Some v' else find k rest
  end.

(** [m.erase(it)] for the iterator [it] at key [k] *)
Fixpoint erase (k : N) (m : t) : t :=
  match m with
  | [] => []
  | (k', v') :: rest =>
      if (k =? k')%N then rest else (k', v') :: erase k rest
  end.

Definition keys (m : t) : list N := map fst m.

(** Keys strictly ascending: the representation invariant. *)
Fixpoint ascending_from (lo : N) (m : t) : bool :=
  match m with
  | [] => true
  | (k, _) :: rest => (lo <? k)%N && ascending_from k rest
  end.

Definition ascending (m : t) : bool :=
  match m with
  | [] => true
  | (k, _) :: rest => ascending_from k rest
  end.
End Ops.
Arguments t : clear implicits.
End StdMap.

(** ** The environment of the library *)

Class Platform := {
  (** state of libc's pseudo-random generator *)
  RNG : Type;
  (** [rand()] *)
  rand : RNG -> Z * RNG;
  RAND_MAX : Z;
  (** [std::random_shuffle(first, last)] on a vector of indices *)
  random_shuffle : list nat -> RNG -> list nat * RNG;
  (** [A.colPivHouseholderQr().solve(b)], read through [x(n)] *)
  solve : list (list float) -> list float -> nat -> float;
  (** the images handed to [Haloc::process] *)
  Image : Type;
  (** [image.empty()] *)
  image_empty : Image -> bool;
  (** [cv::SIFT::create(nfeatures)->detectAndCompute(image, ...)]: the
      descriptor matrix *)
  detectAndCompute : Z -> Image -> Mat
}.

(** ** [class Hash] *)

Record Hash := mkHash {
  initialized_ : bool;
  num_proj_ : Z;
  max_desc_ : Z;
  r_ : list (list float)
}.

(** [Hash::Hash(num_proj, max_desc)] *)
Definition Hash_new (num_proj max_desc : Z) : Hash :=
  {| initialized_ := false; num_proj_ := num_proj; max_desc_ := max_desc;
     r_ := [] |}.

Section HashOps.
Context {PF : Platform}.

(** The loop of [computeRandomVector]: [h[i] = float(rand())/rand_max]. *)
Fixpoint draw (n : nat) (g : RNG) : list float * RNG :=
  match n with
  | O => ([], g)
  | S k =>
      let '(x, g1) := rand g in
      let '(xs, g2) := draw k g1 in
      (fdiv (float_of_int x) (float_of_int RAND_MAX) :: xs, g2)
  end.

(** [Hash::computeRandomVector(size, seed)]. The seed is not used.
    [std::vector<float> h(size)] throws [std::length_error] when the
    [int] is negative. *)
Definition computeRandomVector (size : Z) (g : RNG) : result (list float * RNG) :=
  if size <? 0 then Throw else Ok (draw (Z.to_nat size) g).

(** [sum += pow(x[i], 2.0)] with [float sum] *)
Definition add_square (sum : float) (x : float) : float :=
  to_float (dadd (to_double sum) (dpow2 (to_double x))).

(** [Hash::unitVector] *)
Definition unitVector (x : list float) : list float :=
  let sum := fold_left add_square x f_zero in
  let x_norm := sqrt_float sum in
  map (fun xi => fdiv xi x_norm) x.

(** [sum] of the loop [for m < new_v.size(): sum += new_v[m]*cur_v[m]] *)
Definition dot_leading (new_v cur_v : list float) : float :=
  fold_left
    (fun sum m => fadd sum (fmul (nth m new_v f_zero) (nth m cur_v f_zero)))
    (seq 0 (length new_v)) f_zero.

(** Row [n] of [A]: [r_[n][m]] for [m] from [r_[n].size()-i] up to
    [r_[n].size()-1]. *)
Definition trailing (i : nat) (v : list float) : list float :=
  if (i <=? length v)%nat
  then map (fun m => nth m v f_zero) (seq (length v - i) i)
  else [].

(** One turn of the loop of [initProjections], for loop index [i]. *)
Definition initProjections_step (max_desc : Z) (i : nat)
    (st : list (list float) * RNG) : result (list (list float) * RNG) :=
  let '(r, g) := st in
  '(new_v, g1) ← computeRandomVector (to_int (to_uint (max_desc - Z.of_nat i))) g;
  let b := map (fun cur_v => fopp (dot_leading new_v cur_v)) r in
  let A := map (trailing i) r in
  let x := solve A b in
  let new_v' := new_v ++ map x (seq 0 (length r)) in
  Ok (r ++ [unitVector new_v'], g1).

Fixpoint initProjections_loop (max_desc : Z) (idx : list nat)
    (st : list (list float) * RNG) : result (list (list float) * RNG) :=
  match idx with
  | [] => Ok st
  | i :: rest =>
      st' ← initProjections_step max_desc i st;
      initProjections_loop max_desc rest st'
  end.

(** [Hash::initProjections]: [for (uint i=1; i < num_proj_; i++)]
    compares [i] with [num_proj_] converted to [uint]. *)
Definition initProjections (h : Hash) (g : RNG) : result (Hash * RNG) :=
  '(r, g1) ← computeRandomVector (max_desc_ h) g;
  '(rs, g2) ← initProjections_loop (max_desc_ h)
                 (seq 1 (Z.to_nat (to_uint (num_proj_ h)) - 1))
                 ([unitVector r], g1);
  Ok ({| initialized_ := initialized_ h; num_proj_ := num_proj_ h;
         max_desc_ := max_desc_ h; r_ := rs |}, g2).

(** [Hash::init] *)
Definition init (h : Hash) (g : RNG) : result (Hash * RNG) :=
  '(h1, g1) ← initProjections h g;
  Ok ({| initialized_ := true; num_proj_ := num_proj_ h1;
         max_desc_ := max_desc_ h1; r_ := r_ h1 |}, g1).

(** The block of [calcHash] that adjusts the number of descriptors:
    when there are more rows than [cap = r_[0].size()], the rows at the
    first [cap] shuffled indices are copied. *)
Definition adjust (desc : Mat) (cap : nat) (g : RNG) : Mat * RNG :=
  if (cap <? rows desc)%nat then
    let diff := (rows desc - cap)%nat in
    let '(indices, g1) := random_shuffle (seq 0 (rows desc)) g in
    ({| cols := cols desc;
        data := map (fun i => nth (nth i indices O) (data desc) [])
                    (seq 0 (rows desc - diff)) |}, g1)
  else (desc, g).

(** [desc_sum] after the innermost loop of [calcHash], for the projection
    vector [ri = r_[i]] and column [n]. The loop runs while
    [m < adjusted_desc.rows && m < max_desc_], both bounds as [uint]. *)
Definition desc_sum (max_desc : Z) (ri : list float) (adjusted_desc : Mat)
    (n : nat) : float :=
  fold_left
    (fun sum m =>
       let projected := fmul (nth m ri f_zero) (at_ adjusted_desc m n) in
       let projected_normalized :=
         to_float (ddiv (dadd (to_double projected) (double_lit 1)) (double_lit 2)) in
       fadd sum projected_normalized)
    (seq 0 (Z.to_nat (Z.min (Z.of_nat (rows adjusted_desc)) (to_uint max_desc))))
    f_zero.

(** The index [i*n] of [hash[i*n]]: a product of a [uint] and an [int],
    computed in [uint]. *)
Definition flat_index (i n : nat) : nat :=
  Z.to_nat (to_uint (Z.of_nat i * Z.of_nat n)).

(** The value assigned for the pair [(i, n)]: [desc_sum / desc_length]. *)
Definition scalar (max_desc : Z) (r : list (list float)) (adjusted_desc : Mat)
    (i n : nat) : float :=
  fdiv (desc_sum max_desc (nth i r []) adjusted_desc n)
       (float_of_int (Z.of_nat (rows adjusted_desc))).

(** The loop over [n] for one [i]. *)
Definition project_cols (max_desc : Z) (r : list (list float))
    (adjusted_desc : Mat) (i : nat) (hash : list float) : list float :=
  fold_left
    (fun hash n => <[flat_index i n := scalar max_desc r adjusted_desc i n]> hash)
    (seq 0 (cols adjusted_desc)) hash.

(** The two outer loops, starting from
    [std::vector<float> hash(r_.size()*adjusted_desc.cols)]. *)
Definition project (max_desc : Z) (r : list (list float)) (adjusted_desc : Mat)
    : list float :=
  fold_left
    (fun hash i => project_cols max_desc r adjusted_desc i hash)
    (seq 0 (length r))
    (replicate (length r * cols adjusted_desc) f_zero).

(** [Hash::calcHash] *)
Definition calcHash (desc : Mat) (h : Hash) (g : RNG)
    : result (list float * Hash * RNG) :=
  '(h1, g1) ← (if initialized_ h then Ok (h, g) else init h g);
  if (rows desc =? 0)%nat then Ok ([], h1, g1)
  else
    let '(adjusted_desc, g2) := adjust desc (length (nth 0 (r_ h1) [])) g1 in
    Ok (project (max_desc_ h1) (r_ h1) adjusted_desc, h1, g2).

(** [sim] after the loop of [calcSimilarity] *)
Definition sum_sq_diff (hash_a hash_b : list float) : float :=
  fold_left
    (fun sim i => add_square sim (fsub (nth i hash_a f_zero) (nth i hash_b f_zero)))
    (seq 0 (length hash_a)) f_zero.

(** [Hash::calcSimilarity] *)
Definition calcSimilarity (hash_a hash_b : list float) : float :=
  if negb (length hash_a =? length hash_b)%nat then float_of_int (-1)
  else sqrt_float (sum_sq_diff hash_a hash_b).

End HashOps.


(** ** [class Haloc] *)

Record Haloc := mkHaloc {
  hash_ : Hash;
  (** [nfeatures] of the SIFT detector [sift_] *)
  sift_ : Z;
  hashes_table_ : StdMap.t (list float)
}.

(** [Haloc::Haloc(num_proj, max_desc)] *)
Definition Haloc_new (num_proj max_desc : Z) : Haloc :=
  {| hash_ := Hash_new num_proj max_desc;
     sift_ := max_desc - 5;
     hashes_table_ := [] |}.

Section HalocOps.
Context {PF : Platform}.

(** [Haloc::calcDesc] *)
Definition calcDesc (st : Haloc) (image : Image) : Mat :=
  detectAndCompute (sift_ st) image.

(** [Haloc::calcSimilarities]; [images_to_ignore] is a [std::set<uint>],
    only searched with [find]. The comparison [similarity <= 0.0] is made
    in [double]. *)
Definition calcSimilarities (hashes_table : StdMap.t (list float))
    (hash : list float) (images_to_ignore : list N) : StdMap.t float :=
  fold_left
    (fun similarities hash_pair =>
       if existsb (N.eqb (fst hash_pair)) images_to_ignore then similarities
       else
         let similarity := calcSimilarity hash (snd hash_pair) in
         if fle (to_double similarity) (double_lit 0) then similarities
         else StdMap.insert (fst hash_pair) similarity similarities)
    hashes_table [].

(** [std::min_element(first, last, comp)] with
    [comp(p1, p2) = p1.second < p2.second]: the first element no later
    element is smaller than. *)
Fixpoint min_element_from (smallest : N * float) (l : list (N * float))
    : N * float :=
  match l with
  | [] => smallest
  | p :: rest =>
      min_element_from (if flt (snd p) (snd smallest) then p else smallest) rest
  end.

Definition min_element (m : StdMap.t float) : option (N * float) :=
  match m with
  | [] => None
  | p :: rest => Some (min_element_from p rest)
  end.

(** The loop of [getBestCandidates]:
    [while (candidates.size() < num_candidates && !similarities.empty())],
    where [num_candidates] is converted to [size_t]. Every turn erases one
    entry, so the loop makes at most [similarities.size()] turns; [fuel]
    counts them down. *)
Fixpoint getBestCandidates_loop (fuel : nat) (similarities : StdMap.t float)
    (num_candidates : Z) (candidates : list N) : list N :=
  match min_element similarities with
  | None => candidates
  | Some min_sim =>
      if Z.of_nat (length candidates) <? to_size_t num_candidates then
        match fuel with
        | O => candidates
        | S fuel' =>
            getBestCandidates_loop fuel'
              (StdMap.erase (fst min_sim) similarities) num_candidates
              (candidates ++ [fst min_sim])
        end
      else candidates
  end.

(** [Haloc::getBestCandidates] *)
Definition getBestCandidates (similarities : StdMap.t float)
    (num_candidates : Z) : list N :=
  getBestCandidates_loop (length similarities) similarities num_candidates [].

(** [Haloc::process]. The result is the returned optional together with
    the object and the generator state after the call. *)
Definition process (image_id : N) (image : Image) (num_candidates : Z)
    (images_to_ignore : list N) (st : Haloc) (g : RNG)
    : result (option (list N) * Haloc * RNG) :=
  if image_empty image then Ok (None, st, g)
  else
    let desc := calcDesc st image in
    '(hash, hs, g1) ← calcHash desc (hash_ st) g;
    match hash with
    | [] =>
        Ok (None,
            {| hash_ := hs; sift_ := sift_ st;
               hashes_table_ := hashes_table_ st |}, g1)
    | _ :: _ =>
        let table := StdMap.insert image_id hash (hashes_table_ st) in
        let similarities := calcSimilarities table hash images_to_ignore in
        let candidates := getBestCandidates similarities num_candidates in
        let st' := {| hash_ := hs; sift_ := sift_ st; hashes_table_ := table |} in
        match candidates with
        | [] => Ok (None, st', g1)
        | _ :: _ => Ok (Some candidates, st', g1)
        end
    end.

End HalocOps.

(** ** A platform to run the code on

    The generator state counts the calls of [rand]; the shuffle reverses;
    the solver handles the 1x1 systems of a two-vector basis; an image is
    its own descriptor matrix. *)

Definition test_platform : Platform :=
  {| RNG := nat;
     rand := fun g => (Z.of_nat (S g) * 300000000, S g);
     RAND_MAX := 2147483647;
     random_shuffle := fun l g => (rev l, S g);
     solve := fun A b n =>
       match n with
       | O => fdiv (nth 0 b f_zero) (nth 0 (nth 0 A []) f_zero)
       | S _ => f_zero
       end;
     Image := Mat;
     image_empty := fun m => (rows m =? 0)%nat || (cols m =? 0)%nat;
     detectAndCompute := fun _ m => m |}.

(** ** Notions the properties are stated with *)

(** What [init] establishes and [calcHash] keeps: the basis has one vector
    per projection (one also when [num_proj_] is zero), each of
    [max_desc_] components. *)
Definition basis_ok (h : Hash) : bool :=
  negb (initialized_ h) ||
  ((0 <=? max_desc_ h)
   && (length (r_ h) =? Nat.max 1 (Z.to_nat (to_uint (num_proj_ h))))%nat
   && forallb (fun v => (length v =? Z.to_nat (max_desc_ h))%nat) (r_ h)).

(** The vectors of a basis all have [max_desc] components. *)
Definition vectors_ok (max_desc : Z) (r : list (list float)) : Prop :=
  Forall (fun v => length v = Z.to_nat max_desc) r.

Section Notions.
Context {PF : Platform}.

(** The Euclidean distance in the words of the specification: the square
    root of the sum of the squared per-position differences. It is written
    with the IEEE 754 operations of [SpecFloat] alone, in the formats of the
    C++ types: the difference of two [float]s is a binary32 number, the
    squares and the additions are made in binary64, the running sum is
    kept in binary32, and the root is taken in binary64 and returned in
    binary32. [SFldexp prec emax x 0] is [x * 2^0] rounded to the format:
    the conversion of [x] to it. *)
Definition euclidean_distance (hash_a hash_b : list float) : float :=
  let widen (x : spec_float) : spec_float := SFldexp 53 1024 x 0 in
  let narrow (x : spec_float) : spec_float := SFldexp 24 128 x 0 in
  let differences :=
    map (fun ab => SFsub 24 128 (fst ab) (snd ab)) (combine hash_a hash_b) in
  let squares :=
    map (fun d => SFmul 53 1024 (widen d) (widen d)) differences in
  let sum :=
    fold_left (fun s q => narrow (SFadd 53 1024 (widen s) q)) squares
              (S754_zero false) in
  narrow (SFsqrt 53 1024 (widen sum)).

(** The scalar of position [(i, n)] in the words of the specification: the
    accumulated sum divided by the row count [original_rows] of the
    descriptor matrix before subsampling. *)
Definition scalar_by_original_rows (max_desc : Z) (r : list (list float))
    (adjusted_desc : Mat) (original_rows : nat) (i n : nat) : float :=
  fdiv (desc_sum max_desc (nth i r []) adjusted_desc n)
       (float_of_int (Z.of_nat original_rows)).

(** The pair [(i', n')] comes after [(i, n)] in the two outer loops of
    [calcHash]. *)
Definition later_pair (i n i' n' : nat) : Prop :=
  (i < i')%nat \/ (i' = i /\ (n < n')%nat).

(** The hash a call of [process] stores at [hashes_table_[image_id] = hash],
    if the call gets that far. *)
Definition stored_hash (image : Image) (st : Haloc) (g : RNG)
    : option (list float) :=
  if image_empty image then None
  else
    match calcHash (calcDesc st image) (hash_ st) g with
    | Ok (x :: hash, _, _) => Some (x :: hash)
    | _ => None
    end.

(** The similarity of [hash] to the hash stored under the id [k]. *)
Definition similarity_to (table : StdMap.t (list float)) (hash : list float)
    (k : N) : float :=
  match StdMap.find k table with
  | Some h => calcSimilarity hash h
  | None => S754_nan
  end.

(** An eligible entry of the store: its id is not ignored and its
    similarity to [hash] is positive ([0.0 < similarity], compared in
    [double] like the filter of [calcSimilarities]). *)
Definition eligible (hash : list float) (images_to_ignore : list N)
    (entry : N * list float) : bool :=
  negb (existsb (N.eqb (fst entry)) images_to_ignore)
  && flt (double_lit 0) (to_double (calcSimilarity hash (snd entry))).

(** The test [calcSimilarities] makes on an entry. *)
Definition kept (hash : list float) (images_to_ignore : list N)
    (entry : N * list float) : bool :=
  negb (existsb (N.eqb (fst entry)) images_to_ignore)
  && negb (fle (to_double (calcSimilarity hash (snd entry))) (double_lit 0)).

(** Every hash in the store is a vector of finite numbers. *)
Definition table_finite (table : StdMap.t (list float)) : bool :=
  forallb (fun entry => all_finite (snd entry)) table.

(** The value a map of similarities holds for the id [c]. *)
Definition value_of (similarities : StdMap.t float) (c : N) : float :=
  match StdMap.find c similarities with
  | Some v => v
  | None => S754_nan
  end.

(** The entries the loop of [getBestCandidates] takes out of the map, in
    the order it takes them, when [count] candidates are already there. *)
Fixpoint picked (fuel : nat) (similarities : StdMap.t float)
    (num_candidates : Z) (count : nat) : list (N * float) :=
  match min_element similarities with
  | None => []
  | Some min_sim =>
      if Z.of_nat count <? to_size_t num_candidates then
        match fuel with
        | O => []
        | S fuel' =>
            min_sim :: picked fuel' (StdMap.erase (fst min_sim) similarities)
                              num_candidates (S count)
        end
      else []
  end.

End Notions.

(** ** Concrete inputs *)

Definition fl (k : Z) : float := float_of_int k.

(** One keypoint, two descriptor columns. *)
Definition desc_1x2 : Mat := {| cols := 2; data := [[fl 1; fl 2]] |}.

(** Two keypoints, one column. *)
Definition desc_2x1 : Mat := {| cols := 1; data := [[fl 1]; [fl 1]] |}.

Definition image_a : Mat := {| cols := 1; data := [[fl 1]; [fl 2]] |}.
Definition image_b : Mat := {| cols := 1; data := [[fl 3]; [fl 2]] |}.
Definition image_c : Mat := {| cols := 1; data := [[fl 2]; [fl 5]] |}.
Definition image_none : Mat := {| cols := 0; data := [] |}.

(** The object and generator state after [process] returned. *)
Definition after {PF : Platform} (r : result (option (list N) * Haloc * RNG))
    (otherwise : Haloc * RNG) : Haloc * RNG :=
  match r with
  | Ok (_, st, g) => (st, g)
  | Throw => otherwise
  end.

(** A store holding the hashes of [image_a], [image_b], [image_c] under the
    ids 1, 2, 3, built by three calls of [process] on a fresh object with
    one projection and room for two descriptors. *)
Definition store_123 : Haloc * nat :=
  let s0 := (Haloc_new 1 2, O) in
  let s1 := after (process (PF := test_platform) 1%N image_a 1 [] (fst s0) (snd s0)) s0 in
  let s2 := after (process (PF := test_platform) 2%N image_b 1 [] (fst s1) (snd s1)) s1 in
  after (process (PF := test_platform) 3%N image_c 1 [] (fst s2) (snd s2)) s2.

(** A store built the same way on an object with room for no descriptor
    at all ([max_desc = 0]): no row is retained, [desc_length] is [0.0] and
    every stored hash is the single value [0.0/0.0], NaN. *)
Definition store_nan : Haloc * nat :=
  let s0 := (Haloc_new 1 0, O) in
  let s1 := after (process (PF := test_platform) 1%N image_a 1 [] (fst s0) (snd s0)) s0 in
  let s2 := after (process (PF := test_platform) 2%N image_b 1 [] (fst s1) (snd s1)) s1 in
  after (process (PF := test_platform) 3%N image_c 1 [] (fst s2) (snd s2)) s2.

(** A platform whose feature extractor finds no keypoint in any image. *)
Definition blank_platform : Platform :=
  {| RNG := nat;
     rand := fun g => (Z.of_nat (S g) * 300000000, S g);
     RAND_MAX := 2147483647;
     random_shuffle := fun l g => (rev l, S g);
     solve := fun A b n => f_zero;
     Image := Mat;
     image_empty := fun m => (rows m =? 0)%nat || (cols m =? 0)%nat;
     detectAndCompute := fun _ m => {| cols := 128; data := [] |} |}.

(** Maps of similarities: the smallest value under id 2; a tie between
    the ids 2 and 3. *)
Definition sims_321 : StdMap.t float := [(1%N, fl 3); (2%N, fl 1); (3%N, fl 2)].
Definition sims_tie : StdMap.t float := [(1%N, fl 2); (2%N, fl 1); (3%N, fl 1)].

(** Closes a goal on concrete inputs by evaluation. *)
Ltac concrete :=
  vm_compute; first [reflexivity | lia | discriminate | intuition discriminate].

(** The same, for goals about membership in a concrete list. *)
Ltac evaluate :=
  vm_compute; first [reflexivity | lia | intuition congruence].

(** * Facts about the arithmetic *)

Lemma shr_1_nonneg mrs : 0 <= shr_m mrs -> 0 <= shr_m (shr_1 mrs).
Proof.
  destruct mrs as [m r s]; simpl.
  destruct m as [|p|p]; try destruct p; simpl; lia.
Qed.

Lemma iter_pos_shr_1_nonneg p : forall mrs,
  0 <= shr_m mrs -> 0 <= shr_m (SpecFloat.iter_pos shr_1 p mrs).
Proof.
  induction p as [p IH|p IH|]; intros mrs Hm; simpl.
  - apply IH, IH, shr_1_nonneg, Hm.
  - apply IH, IH, Hm.
  - apply shr_1_nonneg, Hm.
Qed.

Lemma shr_fexp_nonneg prec emax m e l :
  0 <= m -> 0 <= shr_m (fst (shr_fexp prec emax m e l)).
Proof.
  intros Hm. unfold shr_fexp, shr.
  assert (H0 : 0 <= shr_m (shr_record_of_loc m l)).
  { destruct l as [|[]]; simpl; exact Hm. }
  destruct (fexp prec emax (Zdigits2 m + e) - e) as [|p|p]; simpl; try exact H0.
  apply iter_pos_shr_1_nonneg, H0.
Qed.

Lemma round_nearest_even_nonneg m l : 0 <= m -> 0 <= round_nearest_even m l.
Proof.
  intros Hm. destruct l as [|[]]; simpl; try lia.
  destruct (Z.even m); lia.
Qed.

Lemma binary_round_aux_sign prec emax sx mx ex lx :
  0 <= mx -> has_sign sx (binary_round_aux prec emax sx mx ex lx).
Proof.
  intros Hm. unfold binary_round_aux.
  pose proof (shr_fexp_nonneg prec emax mx ex lx Hm) as H1.
  destruct (shr_fexp prec emax mx ex lx) as [mrs' e']; simpl in H1.
  pose proof (shr_fexp_nonneg prec emax
                (round_nearest_even (shr_m mrs') (loc_of_shr_record mrs')) e'
                loc_Exact (round_nearest_even_nonneg _ _ H1)) as H2.
  destruct (shr_fexp prec emax _ e' loc_Exact) as [mrs'' e'']; simpl in H2.
  destruct (shr_m mrs'') as [|p|p]; simpl; try reflexivity; try lia.
  destruct (e'' <=? emax - prec); reflexivity.
Qed.

Lemma binary_round_sign prec emax sx mx ex :
  has_sign sx (binary_round prec emax sx mx ex).
Proof.
  unfold binary_round.
  destruct (shl_align mx ex _) as [mz ez].
  apply binary_round_aux_sign. lia.
Qed.

Lemma has_sign_not_nan s x : has_sign s x -> is_nan x = false.
Proof. destruct x; simpl; intros Hs; [reflexivity..|destruct Hs|reflexivity]. Qed.

Lemma binary_normalize_not_nan prec emax m e sz :
  is_nan (binary_normalize prec emax m e sz) = false.
Proof.
  destruct m as [|p|p]; simpl; try reflexivity;
    eapply has_sign_not_nan, binary_round_sign.
Qed.

Lemma to_double_sign s x : has_sign s x -> has_sign s (to_double x).
Proof.
  destruct x as [s'|s'| |s' m e]; simpl; try tauto.
  intros ->. apply binary_round_sign.
Qed.

Lemma to_float_sign s x : has_sign s x -> has_sign s (to_float x).
Proof.
  destruct x as [s'|s'| |s' m e]; simpl; try tauto.
  intros ->. apply binary_round_sign.
Qed.

Lemma not_nan_has_sign x : is_nan x = false -> exists s, has_sign s x.
Proof. destruct x as [s|s| |s m e]; simpl; intros Hn; try discriminate; eauto. Qed.

Lemma to_double_not_nan x : is_nan x = false -> is_nan (to_double x) = false.
Proof.
  intros Hn. destruct (not_nan_has_sign x Hn) as [s Hs].
  eapply has_sign_not_nan, to_double_sign, Hs.
Qed.

Lemma dpow2_sign x : is_nan x = false -> has_sign false (dpow2 x).
Proof.
  unfold dpow2, dmul.
  destruct x as [s|s| |s m e]; simpl; intros Hn; try discriminate;
    try apply xorb_nilpotent.
  rewrite xorb_nilpotent. apply binary_round_aux_sign. lia.
Qed.

Lemma dadd_sign x y :
  has_sign false x -> has_sign false y -> has_sign false (dadd x y).
Proof.
  unfold dadd.
  destruct x as [sx|sx| |sx mx ex]; destruct y as [sy|sy| |sy my ey];
    simpl; try tauto; intros -> ->; simpl; try reflexivity.
  apply binary_round_sign.
Qed.

Lemma finite_not_nan x : is_finite x = true -> is_nan x = false.
Proof. destruct x; simpl; congruence. Qed.

Lemma fsub_not_nan x y :
  is_finite x = true -> is_finite y = true -> is_nan (fsub x y) = false.
Proof.
  unfold fsub.
  destruct x as [sx|sx| |sx mx ex]; destruct y as [sy|sy| |sy my ey];
    simpl; try discriminate; intros _ _.
  - destruct sx, sy; reflexivity.
  - reflexivity.
  - reflexivity.
  - apply binary_normalize_not_nan.
Qed.

Lemma fsub_diag x : is_finite x = true -> fsub x x = f_zero.
Proof.
  unfold fsub.
  destruct x as [s|s| |s m e]; simpl; try discriminate; intros _.
  - destruct s; reflexivity.
  - rewrite Z.sub_diag. reflexivity.
Qed.

Lemma add_square_sign sum x :
  has_sign false sum -> is_nan x = false -> has_sign false (add_square sum x).
Proof.
  intros Hs Hx. unfold add_square.
  apply to_float_sign, dadd_sign.
  - apply to_double_sign, Hs.
  - apply dpow2_sign, to_double_not_nan, Hx.
Qed.


Lemma has_sign_not_below_zero x : has_sign false x -> not_below_zero x.
Proof. destruct x; simpl; tauto. Qed.

Lemma SFsqrt_core_binary_nonneg prec emax m e :
  0 <= fst (fst (SFsqrt_core_binary prec emax (Z.pos m) e)).
Proof.
  unfold SFsqrt_core_binary.
  match goal with |- context [Z.sqrtrem ?n] =>
    pose proof (Z.sqrtrem_sqrt n) as Hq; pose proof (Z.sqrt_nonneg n) as Hn;
    destruct (Z.sqrtrem n) as [q r]
  end.
  simpl in *. lia.
Qed.

Lemma dsqrt_sign x : has_sign false x -> has_sign false (dsqrt x).
Proof.
  unfold dsqrt.
  destruct x as [s|s| |s m e]; simpl; try tauto; intros ->; try reflexivity.
  pose proof (SFsqrt_core_binary_nonneg 53 1024 m e) as Hq.
  destruct (SFsqrt_core_binary 53 1024 (Z.pos m) e) as [[mz ez] lz].
  apply binary_round_aux_sign, Hq.
Qed.

Lemma dsqrt_not_below_zero x : not_below_zero (dsqrt x).
Proof.
  destruct x as [s|s| |s m e]; try exact I.
  - destruct s; simpl; auto.
  - destruct s; [exact I|].
    apply has_sign_not_below_zero, dsqrt_sign. reflexivity.
Qed.

Lemma to_float_not_below_zero x : not_below_zero x -> not_below_zero (to_float x).
Proof.
  destruct x as [s|s| |s m e]; simpl; try tauto.
  intros ->. apply has_sign_not_below_zero, binary_round_sign.
Qed.

Lemma sqrt_float_not_below_zero x : not_below_zero (sqrt_float x).
Proof. apply to_float_not_below_zero, dsqrt_not_below_zero. Qed.

Lemma sqrt_float_sign x : has_sign false x -> has_sign false (sqrt_float x).
Proof. intros Hx. apply to_float_sign, dsqrt_sign, to_double_sign, Hx. Qed.

Lemma not_below_zero_flt x : not_below_zero x -> flt x f_zero = false.
Proof.
  destruct x as [s|s| |s m e]; simpl; try reflexivity; intros ->; reflexivity.
Qed.

(** ** The order of the comparisons *)

Lemma compare_cont_Eq_Lt p q : Pos.compare_cont Eq p q = Lt <-> (p < q)%positive.
Proof. reflexivity. Qed.

Lemma flt_trans a b c : flt a b = true -> flt b c = true -> flt a c = true.
Proof.
  unfold flt, SFltb.
  destruct a as [sa|sa| |sa ma ea]; destruct b as [sb|sb| |sb mb eb];
    destruct c as [sc|sc| |sc mc ec]; simpl; try discriminate; try reflexivity;
    try (destruct sa; (discriminate || destruct sb; (discriminate || destruct sc; (discriminate || reflexivity)))).
  all: destruct sa, sb, sc; try discriminate; try reflexivity.
  all: fold (Pos.compare ma mb); fold (Pos.compare mb mc); fold (Pos.compare ma mc).
  all: destruct (Z.compare_spec ea eb), (Z.compare_spec eb ec), (Z.compare_spec ea ec);
    try discriminate; try reflexivity; try lia; subst.
  all: destruct (Pos.compare_spec ma mb), (Pos.compare_spec mb mc), (Pos.compare_spec ma mc);
    simpl; try discriminate; try reflexivity; try lia.
Qed.

Lemma flt_false_fle a b :
  is_nan a = false -> is_nan b = false -> flt b a = false -> fle a b = true.
Proof.
  unfold flt, fle, SFltb, SFleb.
  destruct a as [sa|sa| |sa ma ea]; destruct b as [sb|sb| |sb mb eb];
    simpl; try discriminate; try reflexivity; intros _ _.
  all: try (destruct sa; (discriminate || reflexivity)).
  all: try (destruct sb; (discriminate || reflexivity)).
  all: try (destruct sa, sb; (discriminate || reflexivity)).
  destruct sa, sb; try discriminate; try reflexivity.
  all: fold (Pos.compare ma mb); fold (Pos.compare mb ma).
  all: destruct (Z.compare_spec ea eb), (Z.compare_spec eb ea);
    try discriminate; try reflexivity; try lia.
  all: destruct (Pos.compare_spec ma mb), (Pos.compare_spec mb ma);
    simpl; try discriminate; try reflexivity; try lia.
Qed.

(** For a number, [!(x <= 0.0)] is [0.0 < x]. *)
Lemma fle_zero_flt x :
  is_nan x = false -> negb (fle x (double_lit 0)) = flt (double_lit 0) x.
Proof.
  destruct x as [s|s| |s m e]; simpl; try discriminate; intros _;
    try destruct s; reflexivity.
Qed.

Lemma flt_irrefl a : flt a a = false.
Proof.
  unfold flt, SFltb.
  destruct a as [s|s| |s m e]; simpl; try reflexivity.
  - destruct s; reflexivity.
  - fold (Pos.compare m m).
    destruct s; rewrite Z.compare_refl, Pos.compare_refl; reflexivity.
Qed.

Lemma flt_asym a b : flt a b = true -> flt b a = false.
Proof.
  intros Hab. destruct (flt b a) eqn:Hba; [|reflexivity].
  pose proof (flt_trans _ _ _ Hab Hba) as Haa.
  rewrite flt_irrefl in Haa. discriminate.
Qed.

(** * Facts about [std::map] *)

Section StdMapFacts.
Context {V : Type}.
Implicit Types (m : StdMap.t V) (k j lo : N) (v : V).

Lemma insert_insert k v1 v2 m :
  StdMap.insert k v2 (StdMap.insert k v1 m) = StdMap.insert k v2 m.
Proof.
  induction m as [|[k' v'] rest IH]; simpl.
  - rewrite N.ltb_irrefl, N.eqb_refl. reflexivity.
  - destruct (k <? k')%N eqn:Hlt; simpl.
    + rewrite N.ltb_irrefl, N.eqb_refl. reflexivity.
    + destruct (k =? k')%N eqn:Heq; simpl.
      * rewrite N.ltb_irrefl, N.eqb_refl. reflexivity.
      * rewrite Hlt, Heq, IH. reflexivity.
Qed.

Lemma length_insert_value k v1 v2 m :
  length (StdMap.insert k v1 m) = length (StdMap.insert k v2 m).
Proof.
  induction m as [|[k' v'] rest IH]; simpl; [reflexivity|].
  destruct (k <? k')%N; [reflexivity|].
  destruct (k =? k')%N; simpl; [reflexivity|]. rewrite IH. reflexivity.
Qed.

Lemma find_insert_eq k v m : StdMap.find k (StdMap.insert k v m) = Some v.
Proof.
  induction m as [|[k' v'] rest IH]; simpl.
  - rewrite N.eqb_refl. reflexivity.
  - destruct (k <? k')%N eqn:Hlt; simpl.
    + rewrite N.eqb_refl. reflexivity.
    + destruct (k =? k')%N eqn:Heq; simpl.
      * rewrite N.eqb_refl. reflexivity.
      * rewrite Heq. exact IH.
Qed.

Lemma find_insert_ne k j v m :
  k <> j -> StdMap.find j (StdMap.insert k v m) = StdMap.find j m.
Proof.
  intros Hne. apply N.eqb_neq in Hne. rewrite N.eqb_sym in Hne.
  induction m as [|[k' v'] rest IH]; simpl.
  - rewrite Hne. reflexivity.
  - destruct (k <? k')%N eqn:Hlt; simpl.
    + rewrite Hne. reflexivity.
    + destruct (k =? k')%N eqn:Heq; simpl.
      * apply N.eqb_eq in Heq. subst k'. rewrite Hne. reflexivity.
      * rewrite IH. reflexivity.
Qed.

Lemma ascending_from_lt lo m p :
  StdMap.ascending_from lo m = true -> In p m -> (lo < fst p)%N.
Proof.
  revert lo. induction m as [|[k' v'] rest IH]; simpl; intros lo Hasc Hin.
  - destruct Hin.
  - apply andb_true_iff in Hasc as [Hlo Hrest]. apply N.ltb_lt in Hlo.
    destruct Hin as [<-|Hin]; [exact Hlo|].
    specialize (IH _ Hrest Hin). lia.
Qed.

Lemma ascending_from_ascending lo m :
  StdMap.ascending_from lo m = true -> StdMap.ascending m = true.
Proof.
  destruct m as [|[k' v'] rest]; simpl; [reflexivity|].
  intros Hasc. apply andb_true_iff in Hasc as [_ Hrest]. exact Hrest.
Qed.

Lemma ascending_from_insert lo k v m :
  (lo < k)%N -> StdMap.ascending_from lo m = true ->
  StdMap.ascending_from lo (StdMap.insert k v m) = true.
Proof.
  revert lo. induction m as [|[k' v'] rest IH]; simpl; intros lo Hlo Hasc.
  - apply andb_true_iff. split; [apply N.ltb_lt, Hlo|reflexivity].
  - apply andb_true_iff in Hasc as [Hk' Hrest].
    destruct (k <? k')%N eqn:Hlt; simpl.
    + rewrite Hlt, Hrest. simpl. rewrite andb_true_r. apply N.ltb_lt, Hlo.
    + destruct (k =? k')%N eqn:Heq; simpl.
      * apply N.eqb_eq in Heq. subst k'. rewrite Hk', Hrest. reflexivity.
      * rewrite Hk'. simpl. apply IH; [|exact Hrest].
        apply N.ltb_ge in Hlt. apply N.eqb_neq in Heq. lia.
Qed.

Lemma ascending_insert k v m :
  StdMap.ascending m = true -> StdMap.ascending (StdMap.insert k v m) = true.
Proof.
  destruct m as [|[k' v'] rest]; simpl; [reflexivity|]. intros Hasc.
  destruct (k <? k')%N eqn:Hlt; simpl.
  - rewrite Hlt, Hasc. reflexivity.
  - destruct (k =? k')%N eqn:Heq; simpl.
    + apply N.eqb_eq in Heq. subst k'. exact Hasc.
    + apply ascending_from_insert; [|exact Hasc].
      apply N.ltb_ge in Hlt. apply N.eqb_neq in Heq. lia.
Qed.

Lemma In_find_ascending m p :
  StdMap.ascending m = true -> In p m -> StdMap.find (fst p) m = Some (snd p).
Proof.
  induction m as [|[k' v'] rest IH]; simpl; intros Hasc Hin.
  - destruct Hin.
  - destruct Hin as [<-|Hin]; simpl.
    + rewrite N.eqb_refl. reflexivity.
    + pose proof (ascending_from_lt _ _ _ Hasc Hin) as Hlt.
      destruct (fst p =? k')%N eqn:Heq.
      * apply N.eqb_eq in Heq. lia.
      * apply IH; [|exact Hin]. eapply ascending_from_ascending, Hasc.
Qed.

Lemma In_insert_inv k v m p :
  In p (StdMap.insert k v m) -> p = (k, v) \/ In p m.
Proof.
  induction m as [|[k' v'] rest IH]; simpl.
  - intros [<-|[]]. left. reflexivity.
  - destruct (k <? k')%N; simpl.
    + intros [<-|Hp]; auto.
    + destruct (k =? k')%N; simpl.
      * intros [<-|Hp]; auto.
      * intros [<-|Hp]; auto. destruct (IH Hp); auto.
Qed.

Lemma insert_snoc k v m :
  (forall p, In p m -> (fst p < k)%N) -> StdMap.insert k v m = m ++ [(k, v)].
Proof.
  induction m as [|[k' v'] rest IH]; simpl; intros Hlt; [reflexivity|].
  pose proof (Hlt (k', v') (or_introl eq_refl)) as Hk'. simpl in Hk'.
  destruct (k <? k')%N eqn:E1; [apply N.ltb_lt in E1; lia|].
  destruct (k =? k')%N eqn:E2; [apply N.eqb_eq in E2; lia|].
  rewrite IH; [reflexivity|]. intros p Hp. apply Hlt. right. exact Hp.
Qed.

Lemma In_erase k m p : In p (StdMap.erase k m) -> In p m.
Proof.
  induction m as [|[k' v'] rest IH]; simpl; [tauto|].
  destruct (k =? k')%N; simpl; [tauto|]. intros [Hp|Hp]; [left|right]; auto.
Qed.

Lemma length_erase m p :
  In p m -> S (length (StdMap.erase (fst p) m)) = length m.
Proof.
  induction m as [|[k' v'] rest IH]; simpl; intros Hin; [destruct Hin|].
  destruct (fst p =? k')%N eqn:Heq; [reflexivity|].
  destruct Hin as [<-|Hin]; [simpl in Heq; rewrite N.eqb_refl in Heq; discriminate|].
  simpl. rewrite IH; [reflexivity|exact Hin].
Qed.

End StdMapFacts.

(** * Facts about [Hash] *)

Section HashFacts.
Context {PF : Platform}.

Lemma length_draw n g : length (fst (draw n g)) = n.
Proof.
  revert g. induction n as [|n IH]; intros g; simpl; [reflexivity|].
  destruct (rand g) as [x g1]. specialize (IH g1).
  destruct (draw n g1) as [xs g2]. simpl in *. rewrite IH. reflexivity.
Qed.

Lemma length_unitVector x : length (unitVector x) = length x.
Proof. unfold unitVector. apply length_map. Qed.

Lemma to_int_to_uint_small z : 0 <= z < 2 ^ 31 -> to_int (to_uint z) = z.
Proof.
  intros Hz. unfold to_int, to_uint.
  rewrite Z.mod_mod by lia. rewrite Z.mod_small by lia.
  destruct (z <? 2 ^ 31) eqn:E; [reflexivity|]. apply Z.ltb_ge in E. lia.
Qed.

Lemma to_int_to_uint_minus_one : to_int (to_uint (-1)) = -1.
Proof. reflexivity. Qed.

Lemma initProjections_step_ok max_desc i r g :
  0 <= max_desc < 2 ^ 31 -> length r = i -> Z.of_nat i <= max_desc ->
  vectors_ok max_desc r ->
  exists r' g', initProjections_step max_desc i (r, g) = Ok (r', g')
    /\ length r' = S i /\ vectors_ok max_desc r'.
Proof.
  intros Hmax Hlen Hi Hvec. unfold initProjections_step, computeRandomVector.
  rewrite to_int_to_uint_small by lia.
  destruct (max_desc - Z.of_nat i <? 0) eqn:E; [apply Z.ltb_lt in E; lia|].
  simpl. pose proof (length_draw (Z.to_nat (max_desc - Z.of_nat i)) g) as Hd.
  destruct (draw _ g) as [new_v g1]. simpl in *.
  eexists _, _. split; [reflexivity|]. split.
  - rewrite length_app. simpl. lia.
  - apply Forall_app. split; [exact Hvec|].
    constructor; [|constructor].
    rewrite length_unitVector, length_app, length_map, length_seq. lia.
Qed.

Lemma initProjections_step_throw max_desc i r g :
  0 <= max_desc -> Z.of_nat i = max_desc + 1 ->
  initProjections_step max_desc i (r, g) = Throw.
Proof.
  intros Hmax Hi. unfold initProjections_step, computeRandomVector.
  replace (max_desc - Z.of_nat i) with (-1) by lia.
  rewrite to_int_to_uint_minus_one. reflexivity.
Qed.

Lemma initProjections_loop_spec max_desc cnt : forall i r g,
  0 <= max_desc < 2 ^ 31 -> length r = i -> Z.of_nat i <= max_desc + 1 ->
  vectors_ok max_desc r ->
  match initProjections_loop max_desc (seq i cnt) (r, g) with
  | Ok (rs, _) =>
      length rs = (i + cnt)%nat /\ vectors_ok max_desc rs
      /\ Z.of_nat (i + cnt) <= max_desc + 1
  | Throw => max_desc + 1 < Z.of_nat (i + cnt)
  end.
Proof.
  induction cnt as [|cnt IH]; intros i r g Hmax Hlen Hi Hvec;
    cbn [seq initProjections_loop].
  - rewrite Nat.add_0_r. auto.
  - destruct (Z.eq_dec (Z.of_nat i) (max_desc + 1)) as [Heq|Hne].
    + rewrite initProjections_step_throw by lia. simpl. lia.
    + destruct (initProjections_step_ok max_desc i r g Hmax Hlen) as
        (r' & g' & Hstep & Hlen' & Hvec'); [lia|exact Hvec|].
      rewrite Hstep. simpl.
      specialize (IH (S i) r' g' Hmax Hlen').
      replace (i + S cnt)%nat with (S i + cnt)%nat by lia.
      apply IH; [lia|exact Hvec'].
Qed.

Lemma vectors_ok_forallb max_desc r :
  vectors_ok max_desc r ->
  forallb (fun v => (length v =? Z.to_nat max_desc)%nat) r = true.
Proof.
  intros Hvec. apply forallb_forall. intros v Hv.
  apply Nat.eqb_eq. eapply (proj1 (List.Forall_forall _ _) Hvec), Hv.
Qed.

(** [init] either throws, because [max_desc_] is negative or smaller than
    the number of vectors still to generate, or leaves a basis of
    [max(1, num_proj_)] vectors. *)
Lemma init_spec h g :
  max_desc_ h < 2 ^ 31 ->
  match init h g with
  | Ok (h', _) =>
      basis_ok h' = true /\ initialized_ h' = true
      /\ num_proj_ h' = num_proj_ h /\ max_desc_ h' = max_desc_ h
      /\ 0 <= max_desc_ h
      /\ Z.max 1 (to_uint (num_proj_ h)) <= max_desc_ h + 1
  | Throw => max_desc_ h < 0 \/ max_desc_ h + 1 < to_uint (num_proj_ h)
  end.
Proof.
  intros Hmax. unfold init, initProjections, computeRandomVector.
  destruct (max_desc_ h <? 0) eqn:E; simpl.
  { left. apply Z.ltb_lt, E. }
  apply Z.ltb_ge in E.
  pose proof (length_draw (Z.to_nat (max_desc_ h)) g) as Hd.
  destruct (draw _ g) as [r g1]. simpl in *.
  assert (Hu : 0 <= to_uint (num_proj_ h)) by (unfold to_uint; apply Z.mod_pos_bound; lia).
  pose proof (initProjections_loop_spec (max_desc_ h)
                (Z.to_nat (to_uint (num_proj_ h)) - 1) 1 [unitVector r] g1) as Hl.
  destruct (initProjections_loop _ _ _) as [[rs g2]|]; simpl.
  - destruct Hl as (Hlen & Hvec & Hcnt); try lia; try reflexivity.
    { constructor; [|constructor]. rewrite length_unitVector. exact Hd. }
    unfold basis_ok. simpl.
    repeat split; try lia.
    rewrite vectors_ok_forallb by exact Hvec.
    rewrite andb_true_r. apply andb_true_iff. split.
    + apply Z.leb_le, E.
    + apply Nat.eqb_eq. lia.
  - right. specialize (Hl ltac:(lia) eq_refl ltac:(lia)).
    assert (Hv : vectors_ok (max_desc_ h) [unitVector r]).
    { constructor; [|constructor]. rewrite length_unitVector. exact Hd. }
    specialize (Hl Hv). lia.
Qed.

Lemma length_project_cols max_desc r adjusted_desc i hash :
  length (project_cols max_desc r adjusted_desc i hash) = length hash.
Proof.
  unfold project_cols. generalize (seq 0 (cols adjusted_desc)). intros ns.
  revert hash. induction ns as [|n ns IH]; intros hash; simpl; [reflexivity|].
  rewrite IH, length_insert. reflexivity.
Qed.

Lemma length_project max_desc r adjusted_desc :
  length (project max_desc r adjusted_desc) = (length r * cols adjusted_desc)%nat.
Proof.
  unfold project. generalize (seq 0 (length r)) as idx.
  generalize (length r * cols adjusted_desc)%nat as len. intros len idx.
  rewrite <- (length_replicate len f_zero) at 2.
  generalize (replicate len f_zero) as hash.
  induction idx as [|i idx IH]; intros hash; simpl; [reflexivity|].
  rewrite IH, length_project_cols. reflexivity.
Qed.

Lemma basis_ok_initialized h :
  basis_ok h = true -> initialized_ h = true ->
  0 <= max_desc_ h
  /\ length (r_ h) = Nat.max 1 (Z.to_nat (to_uint (num_proj_ h)))
  /\ length (nth 0 (r_ h) []) = Z.to_nat (max_desc_ h).
Proof.
  unfold basis_ok. intros Hok Hini. rewrite Hini in Hok. simpl in Hok.
  apply andb_true_iff in Hok as [Hok Hvec].
  apply andb_true_iff in Hok as [Hmax Hlen].
  apply Z.leb_le in Hmax. apply Nat.eqb_eq in Hlen.
  repeat split; [exact Hmax|exact Hlen|].
  destruct (r_ h) as [|v rest]; simpl in *; [lia|].
  apply andb_true_iff in Hvec as [Hv _]. apply Nat.eqb_eq, Hv.
Qed.

Lemma adjust_spec desc cap g :
  cols (fst (adjust desc cap g)) = cols desc
  /\ rows (fst (adjust desc cap g)) = Nat.min (rows desc) cap.
Proof.
  unfold adjust. destruct (cap <? rows desc)%nat eqn:E.
  - apply Nat.ltb_lt in E.
    destruct (random_shuffle _ g) as [indices g1]. simpl. split; [reflexivity|].
    unfold rows at 1. simpl. rewrite length_map, length_seq. lia.
  - apply Nat.ltb_ge in E. simpl. split; [reflexivity|lia].
Qed.

(** What a call of [calcHash] does, on an object that is fresh or was
    initialised by an earlier call. *)
Lemma calcHash_spec desc h g :
  basis_ok h = true -> max_desc_ h < 2 ^ 31 ->
  match calcHash desc h g with
  | Ok (hash, h', _) =>
      basis_ok h' = true /\ initialized_ h' = true
      /\ num_proj_ h' = num_proj_ h /\ max_desc_ h' = max_desc_ h
      /\ (initialized_ h = true -> h' = h)
      /\ (if (rows desc =? 0)%nat then hash = []
          else exists adjusted_desc g1,
            adjusted_desc = fst (adjust desc (Z.to_nat (max_desc_ h)) g1)
            /\ cols adjusted_desc = cols desc
            /\ rows adjusted_desc = Nat.min (rows desc) (Z.to_nat (max_desc_ h))
            /\ hash = project (max_desc_ h) (r_ h') adjusted_desc)
  | Throw =>
      initialized_ h = false
      /\ (max_desc_ h < 0 \/ max_desc_ h + 1 < to_uint (num_proj_ h))
  end.
Proof.
  intros Hok Hmax. unfold calcHash.
  assert (Hinit : match (if initialized_ h then Ok (h, g) else init h g) with
                  | Ok (h1, _) =>
                      basis_ok h1 = true /\ initialized_ h1 = true
                      /\ num_proj_ h1 = num_proj_ h /\ max_desc_ h1 = max_desc_ h
                      /\ (initialized_ h = true -> h1 = h)
                  | Throw =>
                      initialized_ h = false
                      /\ (max_desc_ h < 0 \/ max_desc_ h + 1 < to_uint (num_proj_ h))
                  end).
  { destruct (initialized_ h) eqn:Hini; [auto|].
    pose proof (init_spec h g Hmax) as Hs.
    destruct (init h g) as [[h1 g1]|]; [|auto].
    destruct Hs as (H1 & H2 & H3 & H4 & _). repeat split; auto. discriminate. }
  destruct (if initialized_ h then Ok (h, g) else init h g) as [[h1 g1]|];
    simpl; [|exact Hinit].
  destruct Hinit as (Hok1 & Hini1 & Hnp & Hmd & Hsame).
  destruct (rows desc =? 0)%nat eqn:Erows; simpl.
  { repeat split; auto. }
  destruct (basis_ok_initialized h1 Hok1 Hini1) as (_ & _ & Hcap).
  pose proof (adjust_spec desc (length (nth 0 (r_ h1) [])) g1) as [Hc Hr].
  rewrite <- Hmd, <- Hcap.
  destruct (adjust desc _ g1) as [adjusted_desc g2] eqn:Eadj. simpl in *.
  repeat split; auto.
  exists adjusted_desc, g1. rewrite Eadj. auto.
Qed.

Lemma project_cols_slot max_desc r adjusted_desc i hash k v :
  project_cols max_desc r adjusted_desc i hash !! k = Some v ->
  hash !! k = Some v
  \/ exists n, (n < cols adjusted_desc)%nat /\ k = flat_index i n
       /\ v = scalar max_desc r adjusted_desc i n.
Proof.
  unfold project_cols.
  assert (Hin : forall n, In n (seq 0 (cols adjusted_desc)) ->
                          (n < cols adjusted_desc)%nat).
  { intros n Hn. apply in_seq in Hn. lia. }
  revert Hin. generalize (seq 0 (cols adjusted_desc)) as ns. intros ns.
  revert hash. induction ns as [|n ns IH]; intros hash Hin; simpl; [auto|].
  intros Hk. apply IH in Hk; [|intros n' Hn'; apply Hin; right; exact Hn'].
  destruct Hk as [Hk|Hk]; [|right; exact Hk].
  apply list_lookup_insert_Some in Hk as [(<- & <- & _)|[_ Hk]]; [|left; exact Hk].
  right. exists n. split; [apply Hin; left; reflexivity|auto].
Qed.

(** Every slot of the projected hash holds the initial [0.0] or the scalar
    of a pair [(i, n)] whose index [i*n] is that slot. *)
Lemma project_slot max_desc r adjusted_desc k v :
  project max_desc r adjusted_desc !! k = Some v ->
  v = f_zero
  \/ exists i n, (i < length r)%nat /\ (n < cols adjusted_desc)%nat
       /\ k = flat_index i n /\ v = scalar max_desc r adjusted_desc i n.
Proof.
  unfold project.
  set (Q := fun (k : nat) (v : float) =>
              v = f_zero
              \/ exists i n, (i < length r)%nat /\ (n < cols adjusted_desc)%nat
                   /\ k = flat_index i n /\ v = scalar max_desc r adjusted_desc i n).
  assert (Hgen : forall idx hash,
             (forall i, In i idx -> (i < length r)%nat) ->
             (forall k v, hash !! k = Some v -> Q k v) ->
             forall k v,
               fold_left (fun hash i => project_cols max_desc r adjusted_desc i hash)
                         idx hash !! k = Some v -> Q k v).
  { induction idx as [|i idx IH]; intros hash Hin Hhash k' v'; simpl.
    - apply Hhash.
    - apply IH.
      + intros i' Hi'. apply Hin. right. exact Hi'.
      + intros k'' v'' Hk.
        destruct (project_cols_slot _ _ _ _ _ _ _ Hk) as [Hw|(n & Hn & Hkn & Hwn)].
        * apply Hhash, Hw.
        * right. exists i, n. repeat split; auto. apply Hin. left. reflexivity. }
  apply Hgen.
  - intros i Hi. apply in_seq in Hi. lia.
  - intros k' v' Hv'. left. apply lookup_replicate in Hv'. tauto.
Qed.

(** The pairs [(0, n)] and [(i, 0)] all have index 0. *)
Lemma flat_index_zero i n : flat_index 0 n = O /\ flat_index i 0 = O.
Proof. unfold flat_index. rewrite Z.mul_0_r. split; reflexivity. Qed.

Lemma flat_index_le i n : (flat_index i n <= i * n)%nat.
Proof.
  unfold flat_index, to_uint.
  assert (H0 : 0 <= Z.of_nat i * Z.of_nat n) by lia.
  pose proof (Z.mod_le _ (2 ^ 32) H0 ltac:(lia)) as Hle.
  pose proof (Z.mod_pos_bound (Z.of_nat i * Z.of_nat n) (2 ^ 32) ltac:(lia)). lia.
Qed.

Lemma project_cols_other max_desc r adjusted_desc i hash k :
  (forall n, (n < cols adjusted_desc)%nat -> flat_index i n <> k) ->
  project_cols max_desc r adjusted_desc i hash !! k = hash !! k.
Proof.
  unfold project_cols. intros Hk.
  assert (Hin : forall n, In n (seq 0 (cols adjusted_desc)) -> flat_index i n <> k).
  { intros n Hn. apply Hk. apply in_seq in Hn. lia. }
  revert Hin. generalize (seq 0 (cols adjusted_desc)) as ns. intros ns.
  revert hash. induction ns as [|n ns IH]; intros hash Hin; simpl; [reflexivity|].
  rewrite IH by (intros n' Hn'; apply Hin; right; exact Hn').
  apply list_lookup_insert_ne. apply Hin. left. reflexivity.
Qed.

(** With at least two projections and two columns no pair [(i, n)] has the
    index of the last slot, which keeps the initial [0.0]. *)
Lemma project_last_slot_unwritten max_desc r adjusted_desc :
  (2 <= length r)%nat -> (2 <= cols adjusted_desc)%nat ->
  project max_desc r adjusted_desc !! (length r * cols adjusted_desc - 1)%nat
  = Some f_zero.
Proof.
  intros HP HD. unfold project.
  set (k := (length r * cols adjusted_desc - 1)%nat).
  assert (Hgen : forall idx hash,
             (forall i, In i idx -> (i < length r)%nat) ->
             fold_left (fun hash i => project_cols max_desc r adjusted_desc i hash)
                       idx hash !! k = hash !! k).
  { induction idx as [|i idx IH]; intros hash Hin; simpl; [reflexivity|].
    rewrite IH by (intros i' Hi'; apply Hin; right; exact Hi').
    apply project_cols_other. intros n Hn.
    pose proof (flat_index_le i n) as Hle.
    assert (Hi : (i < length r)%nat) by (apply Hin; left; reflexivity).
    unfold k. nia. }
  rewrite Hgen by (intros i Hi; apply in_seq in Hi; lia).
  apply lookup_replicate. split; [reflexivity|]. unfold k. nia.
Qed.

Lemma seq_split_at n D :
  (n < D)%nat -> seq 0 D = seq 0 n ++ n :: seq (S n) (D - S n).
Proof.
  intros Hn. replace D with (n + S (D - S n))%nat at 1 by lia.
  rewrite seq_app. reflexivity.
Qed.

(** The pair [(i, n)] is the last of its row to write its slot: the slot
    holds the scalar of the pair after the loop over the columns. *)
Lemma project_cols_last max_desc r adjusted_desc i n hash :
  (n < cols adjusted_desc)%nat ->
  (flat_index i n < length hash)%nat ->
  (forall n', (n < n' < cols adjusted_desc)%nat -> flat_index i n' <> flat_index i n) ->
  project_cols max_desc r adjusted_desc i hash !! flat_index i n
  = Some (scalar max_desc r adjusted_desc i n).
Proof.
  intros Hn Hlen Hlater. unfold project_cols.
  rewrite (seq_split_at n _ Hn), fold_left_app. cbn [fold_left].
  assert (Hb : forall ns h,
            length (fold_left
                      (fun hash n =>
                         <[flat_index i n := scalar max_desc r adjusted_desc i n]> hash)
                      ns h)
            = length h).
  { induction ns as [|m ns IH]; intros h; simpl; [reflexivity|].
    rewrite IH. apply length_insert. }
  assert (Hafter : forall ns (h : list float),
            (forall n', In n' ns -> flat_index i n' <> flat_index i n) ->
            fold_left
              (fun hash n => <[flat_index i n := scalar max_desc r adjusted_desc i n]> hash)
              ns h !! flat_index i n
            = h !! flat_index i n).
  { induction ns as [|m ns IH]; intros h Hns; simpl; [reflexivity|].
    rewrite IH by (intros n' Hn'; apply Hns; right; exact Hn').
    apply list_lookup_insert_ne. apply Hns. left. reflexivity. }
  rewrite Hafter.
  - apply list_lookup_insert_eq. rewrite Hb. exact Hlen.
  - intros n' Hn'. apply in_seq in Hn'. apply Hlater. lia.
Qed.

Lemma length_project_rows max_desc r adjusted_desc idx : forall hash,
  length (fold_left (fun hash i => project_cols max_desc r adjusted_desc i hash)
                    idx hash)
  = length hash.
Proof.
  induction idx as [|i idx IH]; intros hash; simpl; [reflexivity|].
  rewrite IH. apply length_project_cols.
Qed.

Lemma project_rows_other max_desc r adjusted_desc k idx : forall hash,
  (forall i n, In i idx -> (n < cols adjusted_desc)%nat -> flat_index i n <> k) ->
  fold_left (fun hash i => project_cols max_desc r adjusted_desc i hash) idx hash !! k
  = hash !! k.
Proof.
  induction idx as [|i idx IH]; intros hash Hidx; simpl; [reflexivity|].
  rewrite IH by (intros i' n Hi'; apply Hidx; right; exact Hi').
  apply project_cols_other. intros n Hn. apply Hidx; [left; reflexivity|exact Hn].
Qed.

(** The slot of a pair no later pair writes to holds the scalar of that
    pair. *)
Lemma project_last_writer max_desc r adjusted_desc i n :
  (i < length r)%nat -> (n < cols adjusted_desc)%nat ->
  (forall i' n', (i' < length r)%nat -> (n' < cols adjusted_desc)%nat ->
     later_pair i n i' n' -> flat_index i' n' <> flat_index i n) ->
  project max_desc r adjusted_desc !! flat_index i n
  = Some (scalar max_desc r adjusted_desc i n).
Proof.
  intros Hi Hn Hlater. unfold project.
  rewrite (seq_split_at i _ Hi), fold_left_app. cbn [fold_left].
  rewrite project_rows_other.
  - apply project_cols_last; [exact Hn| |].
    + rewrite length_project_rows, length_replicate.
      pose proof (flat_index_le i n). nia.
    + intros n' Hn'. apply Hlater; [exact Hi|lia|]. right. split; [reflexivity|lia].
  - intros i' n' Hi' Hn'. apply in_seq in Hi'.
    apply Hlater; [lia|exact Hn'|]. left. lia.
Qed.

(** A slot no pair has the index of keeps the initial [0.0]. *)
Lemma project_unwritten max_desc r adjusted_desc k :
  (k < length r * cols adjusted_desc)%nat ->
  (forall i n, (i < length r)%nat -> (n < cols adjusted_desc)%nat ->
     flat_index i n <> k) ->
  project max_desc r adjusted_desc !! k = Some f_zero.
Proof.
  intros Hk Hnone. unfold project. rewrite project_rows_other.
  - apply lookup_replicate. split; [reflexivity|exact Hk].
  - intros i n Hi Hn. apply in_seq in Hi. apply Hnone; [lia|exact Hn].
Qed.

(** On an initialised object and a matrix that fits the basis, [calcHash]
    draws no random number: the hash is a function of the descriptors. *)
Lemma calcHash_no_subsampling desc h g :
  initialized_ h = true ->
  (rows desc <= length (nth 0 (r_ h) []))%nat ->
  calcHash desc h g
  = Ok (if (rows desc =? 0)%nat then [] else project (max_desc_ h) (r_ h) desc, h, g).
Proof.
  intros Hini Hfit. unfold calcHash, adjust. rewrite Hini. simpl.
  destruct (rows desc =? 0)%nat; [reflexivity|].
  rewrite (proj2 (Nat.ltb_ge _ _) Hfit). reflexivity.
Qed.

End HashFacts.

(** * Facts about [calcSimilarity] *)

Section SimilarityFacts.
Context {PF : Platform}.

Lemma fold_left_shift {A} (f : A -> nat -> A) l acc :
  fold_left f (map S l) acc = fold_left (fun a i => f a (S i)) l acc.
Proof.
  revert acc. induction l as [|i l IH]; intros acc; simpl; [reflexivity|apply IH].
Qed.

(** The index loop of [calcSimilarity] visits the positions pairwise. *)
Lemma sum_sq_diff_combine hash_a : forall hash_b acc,
  length hash_a = length hash_b ->
  fold_left
    (fun sim i => add_square sim (fsub (nth i hash_a f_zero) (nth i hash_b f_zero)))
    (seq 0 (length hash_a)) acc
  = fold_left (fun sum ab => add_square sum (fsub (fst ab) (snd ab)))
              (combine hash_a hash_b) acc.
Proof.
  induction hash_a as [|x a IH]; intros [|y b] acc Hlen; simpl in *;
    try reflexivity; try discriminate.
  rewrite <- seq_shift, fold_left_shift. simpl.
  apply IH. lia.
Qed.

Lemma calcSimilarity_same_length hash_a hash_b :
  length hash_a = length hash_b ->
  calcSimilarity hash_a hash_b = sqrt_float (sum_sq_diff hash_a hash_b).
Proof.
  intros Hlen. unfold calcSimilarity.
  rewrite (proj2 (Nat.eqb_eq _ _) Hlen). reflexivity.
Qed.

Lemma calcSimilarity_other_length hash_a hash_b :
  length hash_a <> length hash_b ->
  calcSimilarity hash_a hash_b = float_of_int (-1).
Proof.
  intros Hlen. unfold calcSimilarity.
  rewrite (proj2 (Nat.eqb_neq _ _) Hlen). reflexivity.
Qed.

Lemma nth_finite v i : all_finite v = true -> is_finite (nth i v f_zero) = true.
Proof.
  unfold all_finite. intros Hv.
  destruct (nth_in_or_default i v f_zero) as [Hin| ->]; [|reflexivity].
  eapply (proj1 (forallb_forall _ _) Hv), Hin.
Qed.

Lemma sum_sq_diff_sign hash_a hash_b :
  all_finite hash_a = true -> all_finite hash_b = true ->
  has_sign false (sum_sq_diff hash_a hash_b).
Proof.
  intros Ha Hb. unfold sum_sq_diff.
  assert (Hgen : forall idx acc, has_sign false acc ->
            has_sign false
              (fold_left
                 (fun sim i =>
                    add_square sim (fsub (nth i hash_a f_zero) (nth i hash_b f_zero)))
                 idx acc)).
  { induction idx as [|i idx IH]; intros acc Hacc; simpl; [exact Hacc|].
    apply IH, add_square_sign; [exact Hacc|].
    apply fsub_not_nan; apply nth_finite; assumption. }
  apply Hgen. reflexivity.
Qed.

(** Between vectors of finite numbers the similarity is a number. *)
Lemma calcSimilarity_not_nan hash_a hash_b :
  all_finite hash_a = true -> all_finite hash_b = true ->
  is_nan (calcSimilarity hash_a hash_b) = false.
Proof.
  intros Ha Hb. unfold calcSimilarity.
  destruct (length hash_a =? length hash_b)%nat; simpl; [|reflexivity].
  eapply has_sign_not_nan, sqrt_float_sign, sum_sq_diff_sign; assumption.
Qed.

Lemma sum_sq_diff_diag hash : all_finite hash = true -> sum_sq_diff hash hash = f_zero.
Proof.
  intros Hh. unfold sum_sq_diff.
  generalize (seq 0 (length hash)) as idx.
  induction idx as [|i idx IH]; simpl; [reflexivity|].
  rewrite fsub_diag by (apply nth_finite, Hh). exact IH.
Qed.

(** The distance of a vector of finite numbers to itself is [+0.0]. *)
Lemma calcSimilarity_diag hash :
  all_finite hash = true -> calcSimilarity hash hash = f_zero.
Proof.
  intros Hh. rewrite calcSimilarity_same_length by reflexivity.
  rewrite sum_sq_diff_diag by exact Hh. reflexivity.
Qed.

Lemma not_below_zero_fle x :
  not_below_zero x -> is_nan x = false -> fle f_zero x = true.
Proof.
  destruct x as [s|s| |s m e]; simpl; try discriminate; try reflexivity;
    intros -> _; reflexivity.
Qed.

(** The conversions of the code are the roundings to the two formats. *)
Lemma SFldexp_to_double x : SFldexp 53 1024 x 0 = to_double x.
Proof. destruct x as [s|s| |s m e]; simpl; try reflexivity. rewrite Z.add_0_r. reflexivity. Qed.

Lemma SFldexp_to_float x : SFldexp 24 128 x 0 = to_float x.
Proof. destruct x as [s|s| |s m e]; simpl; try reflexivity. rewrite Z.add_0_r. reflexivity. Qed.

Lemma fold_left_map_fuse {A B C} (f : A -> C -> A) (g : B -> C) l : forall acc,
  fold_left f (map g l) acc = fold_left (fun a x => f a (g x)) l acc.
Proof. induction l as [|x l IH]; intros acc; simpl; [reflexivity|apply IH]. Qed.

Lemma fold_left_pointwise {A B} (f f' : A -> B -> A) l :
  (forall a x, f a x = f' a x) ->
  forall acc, fold_left f l acc = fold_left f' l acc.
Proof.
  intros Hf. induction l as [|x l IH]; intros acc; simpl; [reflexivity|].
  rewrite Hf. apply IH.
Qed.

(** The accumulation of [calcSimilarity], pair by pair, makes the
    operations the Euclidean distance is defined with. *)
Lemma euclidean_distance_accumulated hash_a hash_b :
  euclidean_distance hash_a hash_b
  = sqrt_float
      (fold_left (fun sum ab => add_square sum (fsub (fst ab) (snd ab)))
                 (combine hash_a hash_b) f_zero).
Proof.
  unfold euclidean_distance, sqrt_float.
  rewrite SFldexp_to_float, SFldexp_to_double. do 2 f_equal. f_equal.
  rewrite !fold_left_map_fuse.
  apply fold_left_pointwise. intros sum ab.
  unfold add_square, dpow2, dadd, dmul, fsub.
  rewrite SFldexp_to_float, !SFldexp_to_double. reflexivity.
Qed.

End SimilarityFacts.

(** * Facts about [Haloc] *)

Section HalocFacts.
Context {PF : Platform}.

(** On an ascending table the loop of [calcSimilarities] appends: the
    result lists the kept entries in table order. *)
Lemma calcSimilarities_fold hash images_to_ignore table : forall acc,
  StdMap.ascending table = true ->
  (forall p q, In p acc -> In q table -> (fst p < fst q)%N) ->
  fold_left
    (fun similarities hash_pair =>
       if existsb (N.eqb (fst hash_pair)) images_to_ignore then similarities
       else
         let similarity := calcSimilarity hash (snd hash_pair) in
         if fle (to_double similarity) (double_lit 0) then similarities
         else StdMap.insert (fst hash_pair) similarity similarities)
    table acc
  = acc ++ map (fun entry => (fst entry, calcSimilarity hash (snd entry)))
               (List.filter (kept hash images_to_ignore) table).
Proof.
  induction table as [|[k h] rest IH]; intros acc Hasc Hlt.
  - simpl. rewrite app_nil_r. reflexivity.
  - assert (Hrest : StdMap.ascending rest = true)
      by (eapply ascending_from_ascending, Hasc).
    assert (Hk : forall q, In q rest -> (k < fst q)%N)
      by (intros q Hq; eapply ascending_from_lt; [exact Hasc|exact Hq]).
    cbn [fold_left List.filter fst snd].
    destruct (existsb (N.eqb k) images_to_ignore) eqn:E1.
    { assert (Ek : kept hash images_to_ignore (k, h) = false)
        by (unfold kept; cbn [fst snd]; rewrite E1; reflexivity).
      rewrite Ek. apply IH; [exact Hrest|].
      intros p q Hp Hq. apply Hlt; [exact Hp|right; exact Hq]. }
    cbv zeta.
    destruct (fle (to_double (calcSimilarity hash h)) (double_lit 0)) eqn:E2.
    { assert (Ek : kept hash images_to_ignore (k, h) = false)
        by (unfold kept; cbn [fst snd]; rewrite E1, E2; reflexivity).
      rewrite Ek. apply IH; [exact Hrest|].
      intros p q Hp Hq. apply Hlt; [exact Hp|right; exact Hq]. }
    assert (Ek : kept hash images_to_ignore (k, h) = true)
      by (unfold kept; cbn [fst snd]; rewrite E1, E2; reflexivity).
    rewrite Ek. cbn [map fst snd].
    rewrite insert_snoc.
    + rewrite IH; [rewrite <- app_assoc; reflexivity|exact Hrest|].
      intros p q Hp Hq. apply in_app_or in Hp as [Hp|[<-|[]]].
      * apply Hlt; [exact Hp|right; exact Hq].
      * apply Hk, Hq.
    + intros p Hp. apply (Hlt p (k, h)); [exact Hp|left; reflexivity].
Qed.

Lemma calcSimilarities_kept table hash images_to_ignore :
  StdMap.ascending table = true ->
  calcSimilarities table hash images_to_ignore
  = map (fun entry => (fst entry, calcSimilarity hash (snd entry)))
        (List.filter (kept hash images_to_ignore) table).
Proof.
  intros Hasc. unfold calcSimilarities.
  rewrite calcSimilarities_fold; [reflexivity|exact Hasc|].
  intros p q [].
Qed.

(** [min_element] returns an entry no entry is smaller than. *)
Lemma min_element_from_spec l : forall smallest,
  let r := min_element_from smallest l in
  In r (smallest :: l)
  /\ (r = smallest \/ flt (snd r) (snd smallest) = true)
  /\ (forall q, In q l -> flt (snd q) (snd r) = false).
Proof.
  induction l as [|p rest IH]; intros smallest; simpl.
  - split; [left; reflexivity|]. split; [left; reflexivity|]. intros q [].
  - specialize (IH (if flt (snd p) (snd smallest) then p else smallest)).
    simpl in IH. destruct IH as (Hin & Hchain & Hmin).
    set (r := min_element_from (if flt (snd p) (snd smallest) then p else smallest) rest) in *.
    destruct (flt (snd p) (snd smallest)) eqn:Hp.
    + split; [destruct Hin as [<-|Hin]; auto|].
      assert (Hr : flt (snd r) (snd smallest) = true).
      { destruct Hchain as [->|Hc]; [exact Hp|]. eapply flt_trans; eassumption. }
      split; [right; exact Hr|].
      intros q [<-|Hq]; [|apply Hmin, Hq].
      destruct Hchain as [->|Hc]; [apply flt_irrefl|apply flt_asym, Hc].
    + split; [destruct Hin as [<-|Hin]; auto|].
      split; [exact Hchain|].
      intros q [<-|Hq]; [|apply Hmin, Hq].
      destruct Hchain as [->|Hc]; [exact Hp|].
      destruct (flt (snd p) (snd r)) eqn:Hpr; [|reflexivity].
      rewrite (flt_trans _ _ _ Hpr Hc) in Hp. discriminate.
Qed.

Lemma min_element_spec m r :
  min_element m = Some r ->
  In r m /\ forall q, In q m -> flt (snd q) (snd r) = false.
Proof.
  destruct m as [|p rest]; simpl; [discriminate|]. intros [= <-].
  destruct (min_element_from_spec rest p) as (Hin & Hchain & Hmin).
  split; [exact Hin|].
  intros q [<-|Hq]; [|apply Hmin, Hq].
  destruct Hchain as [->|Hc]; [apply flt_irrefl|apply flt_asym, Hc].
Qed.

Lemma min_element_None m : min_element m = None -> m = [].
Proof. destruct m; simpl; [reflexivity|discriminate]. Qed.

(** The loop of [getBestCandidates] appends the ids of entries picked in
    turn, each no larger than the ones picked after it, until the limit is
    reached or the map is empty. It stops before [fuel] runs out. *)
Lemma getBestCandidates_loop_spec num_candidates fuel :
  forall similarities candidates,
  (length similarities <= fuel)%nat ->
  exists chosen : list (N * float),
    getBestCandidates_loop fuel similarities num_candidates candidates
    = candidates ++ map fst chosen
    /\ length chosen
       = Nat.min (length similarities)
                 (Z.to_nat (to_size_t num_candidates) - length candidates)
    /\ (forall p, In p chosen -> In p similarities)
    /\ StronglySorted (fun p q => flt (snd q) (snd p) = false) chosen.
Proof.
  induction fuel as [|fuel IH]; intros similarities candidates Hfuel.
  - destruct similarities; [|simpl in Hfuel; lia].
    exists []. simpl. rewrite app_nil_r. repeat split; auto. constructor.
  - cbn [getBestCandidates_loop].
    destruct (min_element similarities) as [min_sim|] eqn:Emin.
    2:{ apply min_element_None in Emin. subst.
        exists []. simpl. rewrite app_nil_r. repeat split; auto. constructor. }
    destruct (min_element_spec _ _ Emin) as [Hin Hmin].
    destruct (Z.of_nat (length candidates) <? to_size_t num_candidates) eqn:Elim.
    2:{ apply Z.ltb_ge in Elim.
        exists []. simpl. rewrite app_nil_r.
        split; [reflexivity|]. split; [lia|]. split; [intros p []|constructor]. }
    apply Z.ltb_lt in Elim.
    pose proof (length_erase similarities min_sim Hin) as Hlen.
    destruct (IH (StdMap.erase (fst min_sim) similarities)
                 (candidates ++ [fst min_sim]) ltac:(lia))
      as (chosen & Heq & Hcnt & Hsub & Hsorted).
    exists (min_sim :: chosen). split; [|split; [|split]].
    + rewrite Heq, <- app_assoc. reflexivity.
    + simpl. rewrite Hcnt, length_app. simpl. lia.
    + intros p [<-|Hp]; [exact Hin|]. eapply In_erase, Hsub, Hp.
    + constructor; [exact Hsorted|].
      apply List.Forall_forall. intros q Hq. apply Hmin. eapply In_erase, Hsub, Hq.
Qed.

Lemma getBestCandidates_spec similarities num_candidates :
  exists chosen : list (N * float),
    getBestCandidates similarities num_candidates = map fst chosen
    /\ length chosen
       = Nat.min (length similarities) (Z.to_nat (to_size_t num_candidates))
    /\ (forall p, In p chosen -> In p similarities)
    /\ StronglySorted (fun p q => flt (snd q) (snd p) = false) chosen.
Proof.
  destruct (getBestCandidates_loop_spec num_candidates (length similarities)
              similarities [] ltac:(lia)) as (chosen & Heq & Hcnt & Hsub & Hsorted).
  exists chosen. simpl in *. rewrite Nat.sub_0_r in Hcnt. auto.
Qed.

(** More fuel than the size of the map changes nothing. *)
Lemma getBestCandidates_loop_fuel num_candidates fuel1 :
  forall fuel2 similarities candidates,
  (length similarities <= fuel1)%nat -> (length similarities <= fuel2)%nat ->
  getBestCandidates_loop fuel1 similarities num_candidates candidates
  = getBestCandidates_loop fuel2 similarities num_candidates candidates.
Proof.
  induction fuel1 as [|fuel1 IH]; intros [|fuel2] similarities candidates H1 H2.
  - reflexivity.
  - destruct similarities; [reflexivity|simpl in H1; lia].
  - destruct similarities; [reflexivity|simpl in H2; lia].
  - cbn [getBestCandidates_loop].
    destruct (min_element similarities) as [min_sim|] eqn:Emin; [|reflexivity].
    destruct (min_element_spec _ _ Emin) as [Hin _].
    pose proof (length_erase similarities min_sim Hin) as Hlen.
    destruct (_ <? _); [|reflexivity].
    apply IH; lia.
Qed.

(** With [num_candidates = 1] the loop of [getBestCandidates] makes one
    turn: the result is the id [std::min_element] finds. *)
Lemma getBestCandidates_one similarities :
  getBestCandidates similarities 1
  = match min_element similarities with
    | None => []
    | Some min_sim => [fst min_sim]
    end.
Proof.
  unfold getBestCandidates.
  destruct similarities as [|p rest]; [reflexivity|].
  cbn [length getBestCandidates_loop].
  destruct (min_element (p :: rest)) as [min_sim|]; [|reflexivity].
  change (Z.of_nat (length (@nil N)) <? to_size_t 1) with true. cbn iota.
  destruct (length rest) as [|fuel]; cbn [getBestCandidates_loop app];
    destruct (min_element _); reflexivity.
Qed.

End HalocFacts.

(** * Facts about [process] *)

Section ProcessFacts.
Context {PF : Platform}.

(** A call that gets to the assignment [hashes_table_[image_id] = hash]
    returns, with the candidates selected on the updated table. *)
Lemma process_stored image_id image num_candidates images_to_ignore st g hash :
  stored_hash image st g = Some hash ->
  exists hs g1,
    calcHash (calcDesc st image) (hash_ st) g = Ok (hash, hs, g1)
    /\ image_empty image = false
    /\ hash <> []
    /\ process image_id image num_candidates images_to_ignore st g
       = Ok (match getBestCandidates
                     (calcSimilarities
                        (StdMap.insert image_id hash (hashes_table_ st))
                        hash images_to_ignore) num_candidates with
             | [] => None
             | c :: cs => Some (c :: cs)
             end,
             {| hash_ := hs; sift_ := sift_ st;
                hashes_table_ := StdMap.insert image_id hash (hashes_table_ st) |},
             g1).
Proof.
  unfold stored_hash, process.
  destruct (image_empty image); [discriminate|].
  destruct (calcHash (calcDesc st image) (hash_ st) g) as [[[h hs] g1]|];
    [|discriminate].
  destruct h as [|x h]; [discriminate|]. intros [= <-].
  exists hs, g1. repeat split; try discriminate. simpl.
  destruct (getBestCandidates _ _); reflexivity.
Qed.

(** An entry with the very hash being processed is never selected, when
    that hash holds finite numbers only: its distance is [0.0] and the
    filter [similarity <= 0.0] of [calcSimilarities] drops it. *)
Lemma identical_hash_not_candidate table hash images_to_ignore num_candidates k :
  StdMap.ascending table = true -> all_finite hash = true ->
  StdMap.find k table = Some hash ->
  ~ In k (getBestCandidates (calcSimilarities table hash images_to_ignore)
                            num_candidates).
Proof.
  intros Hasc Hfin Hfind Hin.
  destruct (getBestCandidates_spec (calcSimilarities table hash images_to_ignore)
              num_candidates) as (chosen & Heq & _ & Hsub & _).
  rewrite Heq in Hin. apply in_map_iff in Hin as (p & Hp & Hpin).
  apply Hsub in Hpin. rewrite calcSimilarities_kept in Hpin by exact Hasc.
  apply in_map_iff in Hpin as (e & He & Hein).
  apply filter_In in Hein as [Hein Hkept].
  pose proof (In_find_ascending _ _ Hasc Hein) as Hfe.
  subst p. simpl in Hp. rewrite Hp, Hfind in Hfe. injection Hfe as Hfe.
  unfold kept in Hkept. rewrite <- Hfe, calcSimilarity_diag in Hkept by exact Hfin.
  apply andb_true_iff in Hkept as [_ Hkept]. discriminate.
Qed.

(** Candidates are ids of the table. *)
Lemma candidates_in_table table hash images_to_ignore num_candidates k :
  StdMap.ascending table = true ->
  In k (getBestCandidates (calcSimilarities table hash images_to_ignore)
                          num_candidates) ->
  In k (StdMap.keys table).
Proof.
  intros Hasc Hin.
  destruct (getBestCandidates_spec (calcSimilarities table hash images_to_ignore)
              num_candidates) as (chosen & Heq & _ & Hsub & _).
  rewrite Heq in Hin. apply in_map_iff in Hin as (p & Hp & Hpin).
  apply Hsub in Hpin. rewrite calcSimilarities_kept in Hpin by exact Hasc.
  apply in_map_iff in Hpin as (e & He & Hein).
  apply filter_In in Hein as [Hein _].
  unfold StdMap.keys. apply in_map_iff. exists e. subst. auto.
Qed.

(** The hypotheses on the object made below hold of every object the
    class produces: of a new one, and after every call that returns. *)
Lemma Haloc_new_invariants num_proj max_desc :
  basis_ok (hash_ (Haloc_new num_proj max_desc)) = true
  /\ StdMap.ascending (hashes_table_ (Haloc_new num_proj max_desc)) = true.
Proof. split; reflexivity. Qed.

Lemma process_keeps_invariants
    image_id image num_candidates images_to_ignore st g r st' g' :
  basis_ok (hash_ st) = true -> max_desc_ (hash_ st) < 2 ^ 31 ->
  StdMap.ascending (hashes_table_ st) = true ->
  process image_id image num_candidates images_to_ignore st g = Ok (r, st', g') ->
  basis_ok (hash_ st') = true
  /\ max_desc_ (hash_ st') = max_desc_ (hash_ st)
  /\ num_proj_ (hash_ st') = num_proj_ (hash_ st)
  /\ StdMap.ascending (hashes_table_ st') = true.
Proof.
  intros Hok Hmax Hasc. unfold process.
  destruct (image_empty image); [intros [= _ <- _]; auto|].
  pose proof (calcHash_spec (calcDesc st image) (hash_ st) g Hok Hmax) as Hs.
  destruct (calcHash (calcDesc st image) (hash_ st) g) as [[[hash hs] g1]|];
    simpl; [|discriminate].
  destruct Hs as (Hok' & _ & Hnp & Hmd & _).
  destruct hash as [|x hash]; [intros [= _ <- _]; auto|].
  destruct (getBestCandidates _ _); intros [= _ <- _]; simpl;
    repeat split; auto; apply ascending_insert, Hasc.
Qed.

Lemma kept_eligible hash images_to_ignore entry :
  all_finite hash = true -> all_finite (snd entry) = true ->
  kept hash images_to_ignore entry = eligible hash images_to_ignore entry.
Proof.
  intros Hh He. unfold kept, eligible. f_equal.
  apply fle_zero_flt, to_double_not_nan, calcSimilarity_not_nan; assumption.
Qed.

Lemma table_finite_insert k hash table :
  all_finite hash = true -> table_finite table = true ->
  table_finite (StdMap.insert k hash table) = true.
Proof.
  unfold table_finite. intros Hh Ht. apply forallb_forall. intros p Hp.
  apply In_insert_inv in Hp as [->|Hp]; [exact Hh|].
  eapply (proj1 (forallb_forall _ _) Ht), Hp.
Qed.

(** Entries picked in non-decreasing order of their values are ids in
    non-decreasing order of similarity, when the values are numbers. *)
Lemma chosen_sorted (sim : N -> float) chosen :
  (forall p, In p chosen -> sim (fst p) = snd p /\ is_nan (snd p) = false) ->
  StronglySorted (fun p q => flt (snd q) (snd p) = false) chosen ->
  StronglySorted (fun a b => fle (sim a) (sim b) = true) (map fst chosen).
Proof.
  intros Hval Hsorted. induction Hsorted as [|p rest Hrest IH Hp]; simpl.
  - constructor.
  - constructor.
    + apply IH. intros q Hq. apply Hval. right. exact Hq.
    + apply List.Forall_forall. intros b Hb.
      apply in_map_iff in Hb as (q & <- & Hq).
      destruct (Hval p (or_introl eq_refl)) as [-> Hnp].
      destruct (Hval q (or_intror Hq)) as [-> Hnq].
      apply flt_false_fle; [exact Hnp|exact Hnq|].
      eapply (proj1 (List.Forall_forall _ _) Hp), Hq.
Qed.

Lemma keys_123_ascending {V} (m : StdMap.t V) :
  StdMap.keys m = [1; 2; 3]%N -> StdMap.ascending m = true.
Proof.
  destruct m as [|[k1 v1] [|[k2 v2] [|[k3 v3] [|]]]]; simpl; try discriminate.
  intros [= -> -> ->]. reflexivity.
Qed.

End ProcessFacts.

(** * The properties of the specification *)

Section Claims.
Context {PF : Platform}.

(** C2, as the code has it. For a descriptor matrix with at least one row
    and [D] columns, [calcHash] returns a hash of length [num_proj * D]
    when the object, fresh or initialised by an earlier call ([basis_ok]),
    is configured with [1 <= num_proj <= max_desc + 1]: then [init] does
    not throw and the basis has [num_proj] vectors. *)
Theorem calcHash_length desc h g :
  basis_ok h = true ->
  1 <= num_proj_ h <= max_desc_ h + 1 -> max_desc_ h < 2 ^ 31 ->
  (1 <= rows desc)%nat ->
  exists hash h' g',
    calcHash desc h g = Ok (hash, h', g')
    /\ length hash = (Z.to_nat (num_proj_ h) * cols desc)%nat.
Proof.
  intros Hok Hnp Hmax Hrows.
  pose proof (calcHash_spec desc h g Hok Hmax) as Hs.
  assert (Hu : to_uint (num_proj_ h) = num_proj_ h)
    by (unfold to_uint; apply Z.mod_small; lia).
  destruct (calcHash desc h g) as [[[hash h'] g']|].
  - exists hash, h', g'. split; [reflexivity|].
    destruct Hs as (Hok' & Hini' & Hnp' & Hmd' & _ & Hhash).
    destruct (rows desc =? 0)%nat eqn:E; [apply Nat.eqb_eq in E; lia|].
    destruct Hhash as (adjusted_desc & g1 & _ & Hcols & _ & ->).
    rewrite length_project, Hcols.
    destruct (basis_ok_initialized h' Hok' Hini') as (_ & Hlen & _).
    rewrite Hlen, Hnp', Hu. f_equal. lia.
  - rewrite Hu in Hs. lia.
Qed.

(** C3, as the code has it. On an object configured with
    [1 <= num_proj <= max_desc + 1], when the descriptor matrix has more
    than [max_desc] rows, [max_desc] rows are retained and the accumulated
    sum of every pair [(i, n)] is divided by the number of retained rows,
    [max_desc], not by the original row count. The quotient of a pair is
    what its slot [i*n] holds after the call, unless a later pair has the
    same index; the slot of the last pair always holds its quotient; a slot
    no pair has the index of keeps [0.0]; and no slot holds anything else. *)
Theorem calcHash_divides_by_retained_rows desc h g :
  basis_ok h = true ->
  1 <= num_proj_ h <= max_desc_ h + 1 -> max_desc_ h < 2 ^ 31 ->
  max_desc_ h < Z.of_nat (rows desc) ->
  exists hash h' g' adjusted_desc g1,
    calcHash desc h g = Ok (hash, h', g')
    /\ adjusted_desc = fst (adjust desc (Z.to_nat (max_desc_ h)) g1)
    /\ rows adjusted_desc = Z.to_nat (max_desc_ h)
    /\ length hash = (Z.to_nat (num_proj_ h) * cols desc)%nat
    /\ let quotient i n :=
         fdiv (desc_sum (max_desc_ h) (nth i (r_ h') []) adjusted_desc n)
              (float_of_int (max_desc_ h)) in
       (forall i n,
          (i < Z.to_nat (num_proj_ h))%nat -> (n < cols desc)%nat ->
          (forall i' n',
             (i' < Z.to_nat (num_proj_ h))%nat -> (n' < cols desc)%nat ->
             later_pair i n i' n' -> flat_index i' n' <> flat_index i n) ->
          hash !! flat_index i n = Some (quotient i n))
       /\ ((1 <= cols desc)%nat ->
           hash !! flat_index (Z.to_nat (num_proj_ h) - 1) (cols desc - 1)
           = Some (quotient (Z.to_nat (num_proj_ h) - 1)%nat (cols desc - 1)%nat))
       /\ (forall k,
             (k < Z.to_nat (num_proj_ h) * cols desc)%nat ->
             (forall i n,
                (i < Z.to_nat (num_proj_ h))%nat -> (n < cols desc)%nat ->
                flat_index i n <> k) ->
             hash !! k = Some f_zero)
       /\ forall k v, hash !! k = Some v ->
            v = f_zero
            \/ exists i n,
                 (i < Z.to_nat (num_proj_ h))%nat /\ (n < cols desc)%nat
                 /\ k = flat_index i n /\ v = quotient i n.
Proof.
  intros Hok Hnp Hmax Hrows.
  pose proof (calcHash_spec desc h g Hok Hmax) as Hs.
  assert (Hu : to_uint (num_proj_ h) = num_proj_ h)
    by (unfold to_uint; apply Z.mod_small; lia).
  destruct (calcHash desc h g) as [[[hash h'] g']|]; [|rewrite Hu in Hs; lia].
  destruct Hs as (Hok' & Hini' & Hnp' & Hmd' & _ & Hhash).
  destruct (rows desc =? 0)%nat eqn:E; [apply Nat.eqb_eq in E; lia|].
  destruct Hhash as (adjusted_desc & g1 & Hadj & Hcols & Hr & ->).
  assert (Hr' : rows adjusted_desc = Z.to_nat (max_desc_ h)) by lia.
  destruct (basis_ok_initialized h' Hok' Hini') as (_ & Hlen & _).
  assert (HP : length (r_ h') = Z.to_nat (num_proj_ h))
    by (rewrite Hlen, Hnp', Hu; lia).
  assert (Hq : forall i n,
            scalar (max_desc_ h) (r_ h') adjusted_desc i n
            = fdiv (desc_sum (max_desc_ h) (nth i (r_ h') []) adjusted_desc n)
                   (float_of_int (max_desc_ h))).
  { intros i n. unfold scalar. rewrite Hr', Z2Nat.id by lia. reflexivity. }
  assert (Hlast : forall i n,
            (i < Z.to_nat (num_proj_ h))%nat -> (n < cols desc)%nat ->
            (forall i' n',
               (i' < Z.to_nat (num_proj_ h))%nat -> (n' < cols desc)%nat ->
               later_pair i n i' n' -> flat_index i' n' <> flat_index i n) ->
            project (max_desc_ h) (r_ h') adjusted_desc !! flat_index i n
            = Some (fdiv (desc_sum (max_desc_ h) (nth i (r_ h') []) adjusted_desc n)
                         (float_of_int (max_desc_ h)))).
  { intros i n Hi Hn Hlater. rewrite <- Hq.
    apply project_last_writer; rewrite ?HP, ?Hcols; assumption. }
  exists (project (max_desc_ h) (r_ h') adjusted_desc), h', g', adjusted_desc, g1.
  split; [reflexivity|]. split; [exact Hadj|]. split; [exact Hr'|].
  split; [rewrite length_project, HP, Hcols; reflexivity|].
  cbv zeta. split; [exact Hlast|]. split; [|split].
  - intros HD. apply Hlast; [lia|lia|].
    intros i' n' Hi' Hn' [Hl|[_ Hl]]; lia.
  - intros k Hk Hnone. apply project_unwritten; rewrite HP, Hcols; assumption.
  - intros k v Hk.
    apply project_slot in Hk as [->|(i & n & Hi & Hn & -> & ->)]; [auto|].
    right. exists i, n. rewrite HP in Hi. rewrite Hcols in Hn.
    repeat split; [exact Hi|exact Hn|apply Hq].
Qed.

(** C4. [calcSimilarity] returns a negative value exactly when the two
    hashes differ in length, and then the sentinel [-1.0]; for hashes of
    equal length it returns the Euclidean distance, which is never below
    zero: it is at least [0.0] whenever it is a number. *)
Theorem calcSimilarity_negative_iff_length_mismatch hash_a hash_b :
  (flt (calcSimilarity hash_a hash_b) f_zero = true
   <-> length hash_a <> length hash_b)
  /\ (length hash_a <> length hash_b ->
      calcSimilarity hash_a hash_b = float_of_int (-1))
  /\ (length hash_a = length hash_b ->
      calcSimilarity hash_a hash_b = euclidean_distance hash_a hash_b
      /\ flt (calcSimilarity hash_a hash_b) f_zero = false
      /\ (is_nan (calcSimilarity hash_a hash_b) = false ->
          fle f_zero (calcSimilarity hash_a hash_b) = true)).
Proof.
  assert (Hsame : length hash_a = length hash_b ->
            calcSimilarity hash_a hash_b = euclidean_distance hash_a hash_b
            /\ not_below_zero (calcSimilarity hash_a hash_b)).
  { intros Hlen. rewrite calcSimilarity_same_length by exact Hlen. split.
    - rewrite euclidean_distance_accumulated. unfold sum_sq_diff.
      rewrite sum_sq_diff_combine by exact Hlen. reflexivity.
    - apply sqrt_float_not_below_zero. }
  split; [|split].
  - split.
    + intros Hneg Hlen. destruct (Hsame Hlen) as [_ Hnb].
      rewrite (not_below_zero_flt _ Hnb) in Hneg. discriminate.
    + intros Hlen. rewrite calcSimilarity_other_length by exact Hlen. reflexivity.
  - apply calcSimilarity_other_length.
  - intros Hlen. destruct (Hsame Hlen) as [Heq Hnb].
    split; [exact Heq|]. split.
    + apply not_below_zero_flt, Hnb.
    + apply not_below_zero_fle, Hnb.
Qed.

(** C6. On an empty image [process] returns the absent result and leaves
    the whole object, the table of hashes included, as it was. *)
Theorem process_empty_image image_id image num_candidates images_to_ignore st g :
  image_empty image = true ->
  process image_id image num_candidates images_to_ignore st g = Ok (None, st, g).
Proof. intros Hempty. unfold process. rewrite Hempty. reflexivity. Qed.

(** C9. [process] never returns a present but empty list of candidates. *)
Theorem process_never_present_and_empty
    image_id image num_candidates images_to_ignore st g :
  match process image_id image num_candidates images_to_ignore st g with
  | Ok (Some candidates, _, _) => candidates <> []
  | Ok (None, _, _) | Throw => True
  end.
Proof.
  unfold process.
  destruct (image_empty image); [exact I|].
  destruct (calcHash (calcDesc st image) (hash_ st) g) as [[[hash hs] g1]|];
    simpl; [|exact I].
  destruct hash as [|x hash]; [exact I|].
  destruct (getBestCandidates _ _); [exact I|discriminate].
Qed.

(** C8. When two calls of [process] with the same [image_id] both get to
    the storage step, the second leaves the number of entries unchanged and
    the entry of [image_id] holds the second hash, whole; the entries of
    the other ids are untouched. *)
Theorem process_same_id_overwrites
    image_id image1 image2 n1 n2 ignore1 ignore2 st g hash1 hash2 r1 st1 g1 :
  stored_hash image1 st g = Some hash1 ->
  process image_id image1 n1 ignore1 st g = Ok (r1, st1, g1) ->
  stored_hash image2 st1 g1 = Some hash2 ->
  exists r2 st2 g2,
    process image_id image2 n2 ignore2 st1 g1 = Ok (r2, st2, g2)
    /\ length (hashes_table_ st2) = length (hashes_table_ st1)
    /\ StdMap.find image_id (hashes_table_ st2) = Some hash2
    /\ forall k, k <> image_id ->
         StdMap.find k (hashes_table_ st2) = StdMap.find k (hashes_table_ st1).
Proof.
  intros H1 Hcall1 H2.
  destruct (process_stored image_id image1 n1 ignore1 st g hash1 H1)
    as (hs1 & g1' & _ & _ & _ & Hp1).
  rewrite Hp1 in Hcall1. injection Hcall1 as _ <- _.
  destruct (process_stored image_id image2 n2 ignore2 _ g1 hash2 H2)
    as (hs2 & g2 & _ & _ & _ & Hp2).
  eexists _, _, _. split; [exact Hp2|]. simpl.
  split; [|split].
  - rewrite insert_insert. apply length_insert_value.
  - apply find_insert_eq.
  - intros k Hk. apply find_insert_ne. congruence.
Qed.

(** C10, as the code has it. When the new hash holds finite numbers only,
    the candidates returned by [process] never contain [image_id] itself:
    the new hash is stored before the similarities are computed, its
    distance to itself is [0.0] and the filter [similarity <= 0.0] removes
    it. *)
Theorem process_excludes_own_id
    image_id image num_candidates images_to_ignore st g hash :
  StdMap.ascending (hashes_table_ st) = true ->
  stored_hash image st g = Some hash ->
  all_finite hash = true ->
  exists r st' g',
    process image_id image num_candidates images_to_ignore st g = Ok (r, st', g')
    /\ StdMap.find image_id (hashes_table_ st') = Some hash
    /\ calcSimilarity hash hash = f_zero
    /\ forall candidates, r = Some candidates -> ~ In image_id candidates.
Proof.
  intros Hasc Hst Hfin.
  destruct (process_stored image_id image num_candidates images_to_ignore st g
              hash Hst) as (hs & g1 & _ & _ & _ & Hp).
  eexists _, _, _. split; [exact Hp|]. simpl.
  split; [apply find_insert_eq|]. split; [apply calcSimilarity_diag, Hfin|].
  intros candidates Hc Hin.
  eapply (identical_hash_not_candidate
            (StdMap.insert image_id hash (hashes_table_ st)) hash
            images_to_ignore num_candidates image_id).
  - apply ascending_insert, Hasc.
  - exact Hfin.
  - apply find_insert_eq.
  - destruct (getBestCandidates _ _) as [|c cs]; [discriminate|].
    injection Hc as <-. exact Hin.
Qed.

(** C7, as the code has it. The store holds hashes for the ids 1, 2, 3 and
    the hash of id 2 was computed from the descriptors of the new image,
    with the basis in use and without subsampling. Processing the new image
    with [num_candidates = 1] and nothing ignored does not return [[2]]:
    the hash of id 2 is at distance [0.0] and is filtered out. The result
    is absent, when the filter keeps no entry of the store, or else the
    single id 1 or 3 whose hash is closest among the entries kept: no kept
    entry has a smaller similarity, and its similarity is [<=] that of any
    kept entry when both hashes hold finite numbers. *)
Theorem process_identical_descriptors_excluded
    image_id image st g g0 hash2 hs0 g0' :
  StdMap.keys (hashes_table_ st) = [1; 2; 3]%N ->
  initialized_ (hash_ st) = true ->
  (rows (calcDesc st image) <= length (nth 0 (r_ (hash_ st)) []))%nat ->
  calcHash (calcDesc st image) (hash_ st) g0 = Ok (hash2, hs0, g0') ->
  StdMap.find 2%N (hashes_table_ st) = Some hash2 ->
  image_empty image = false ->
  hash2 <> [] ->
  all_finite hash2 = true ->
  exists r st' g',
    process image_id image 1 [] st g = Ok (r, st', g')
    /\ kept hash2 [] (2%N, hash2) = false
    /\ ((r = None
         /\ forall entry, In entry (hashes_table_ st') ->
                          kept hash2 [] entry = false)
        \/ exists j hash_j,
             r = Some [j] /\ j <> 2%N /\ j <> image_id /\ In j [1; 3]%N
             /\ StdMap.find j (hashes_table_ st') = Some hash_j
             /\ kept hash2 [] (j, hash_j) = true
             /\ forall entry,
                  In entry (hashes_table_ st') ->
                  kept hash2 [] entry = true ->
                  flt (calcSimilarity hash2 (snd entry))
                      (calcSimilarity hash2 hash_j) = false
                  /\ (all_finite hash_j = true ->
                      all_finite (snd entry) = true ->
                      fle (calcSimilarity hash2 hash_j)
                          (calcSimilarity hash2 (snd entry)) = true)).
Proof.
  intros Hkeys Hini Hfit Hh2 Hfind Hne Hnonempty Hfin.
  pose proof (keys_123_ascending _ Hkeys) as Hasc.
  assert (Hst : stored_hash image st g = Some hash2).
  { unfold stored_hash. rewrite Hne.
    rewrite calcHash_no_subsampling in Hh2 |- * by assumption.
    injection Hh2 as Hh2 _ _. rewrite Hh2.
    destruct hash2; [contradiction|reflexivity]. }
  destruct (process_stored image_id image 1 [] st g hash2 Hst)
    as (hs & g1 & _ & _ & _ & Hp).
  eexists _, _, _. split; [exact Hp|].
  cbn [hashes_table_].
  set (table := StdMap.insert image_id hash2 (hashes_table_ st)) in *.
  assert (Hasc' : StdMap.ascending table = true) by apply ascending_insert, Hasc.
  assert (Hk2 : kept hash2 [] (2%N, hash2) = false).
  { unfold kept. cbn [snd]. rewrite calcSimilarity_diag by exact Hfin. reflexivity. }
  split; [exact Hk2|].
  assert (Hsame : forall k h, In (k, h) table -> kept hash2 [] (k, h) = true ->
                              h <> hash2).
  { intros k h _ Hk ->. unfold kept in Hk. cbn [snd] in Hk.
    rewrite calcSimilarity_diag in Hk by exact Hfin. discriminate. }
  rewrite getBestCandidates_one, calcSimilarities_kept by exact Hasc'.
  destruct (min_element _) as [min_sim|] eqn:Emin.
  - right. apply min_element_spec in Emin as [Hin Hmin].
    apply in_map_iff in Hin as ([j hash_j] & <- & Hj).
    apply filter_In in Hj as [Hj Hkept]. cbn [fst snd] in *.
    exists j, hash_j.
    pose proof (In_find_ascending _ _ Hasc' Hj) as Hfj. cbn [fst snd] in Hfj.
    pose proof (Hsame j hash_j Hj Hkept) as Hdiff.
    assert (Hj2 : j <> 2%N).
    { intros ->. apply Hdiff.
      assert (Hf2 : StdMap.find 2%N table = Some hash2).
      { unfold table. destruct (N.eq_dec image_id 2%N) as [->|Hid].
        - apply find_insert_eq.
        - rewrite find_insert_ne by exact Hid. exact Hfind. }
      congruence. }
    assert (Hjid : j <> image_id).
    { intros ->. apply Hdiff. unfold table in Hfj.
      rewrite find_insert_eq in Hfj. congruence. }
    split; [reflexivity|]. split; [exact Hj2|]. split; [exact Hjid|].
    split.
    { unfold table in Hj. apply In_insert_inv in Hj as [Hj|Hj]; [congruence|].
      assert (Hk : In j (StdMap.keys (hashes_table_ st)))
        by (unfold StdMap.keys; apply (in_map fst _ _ Hj)).
      rewrite Hkeys in Hk. simpl in Hk |- *.
      destruct Hk as [Hk|[Hk|[Hk|[]]]]; auto; congruence. }
    split; [exact Hfj|]. split; [exact Hkept|].
    intros entry He Hke.
    assert (Hlt : flt (calcSimilarity hash2 (snd entry))
                      (calcSimilarity hash2 hash_j) = false).
    { apply (Hmin (fst entry, calcSimilarity hash2 (snd entry))).
      apply in_map_iff. exists entry. split; [reflexivity|].
      apply filter_In. split; assumption. }
    split; [exact Hlt|].
    intros Hfj' Hfe. apply flt_false_fle; [| |exact Hlt];
      apply calcSimilarity_not_nan; assumption.
  - left. split; [reflexivity|].
    apply min_element_None in Emin. apply map_eq_nil in Emin.
    intros entry He. destruct (kept hash2 [] entry) eqn:Hk; [|reflexivity].
    assert (Hin : In entry (List.filter (kept hash2 []) table))
      by (apply filter_In; split; assumption).
    rewrite Emin in Hin. destruct Hin.
Qed.

(** C5, as the code has it. When [num_candidates] is a non-negative [int]
    and the stored hashes and the new hash hold finite numbers only, a
    list of candidates returned by [process] is in non-decreasing order of
    similarity to the new hash, and its length is the smaller of
    [num_candidates] and the number of eligible entries of the store:
    those not ignored and with positive similarity. The store is a
    [std::map]. *)
Theorem process_candidates_sorted_and_counted
    image_id image num_candidates images_to_ignore st g hash candidates st' g' :
  StdMap.ascending (hashes_table_ st) = true ->
  table_finite (hashes_table_ st) = true ->
  0 <= num_candidates < 2 ^ 31 ->
  stored_hash image st g = Some hash ->
  all_finite hash = true ->
  process image_id image num_candidates images_to_ignore st g
  = Ok (Some candidates, st', g') ->
  StronglySorted
    (fun a b => fle (similarity_to (hashes_table_ st') hash a)
                    (similarity_to (hashes_table_ st') hash b) = true)
    candidates
  /\ length candidates
     = Nat.min (Z.to_nat num_candidates)
               (length (List.filter (eligible hash images_to_ignore)
                                    (hashes_table_ st'))).
Proof.
  intros Hasc Htf Hn Hst Hfin Hproc.
  destruct (process_stored image_id image num_candidates images_to_ignore st g
              hash Hst) as (hs & g1 & _ & _ & _ & Hp).
  rewrite Hp in Hproc. clear Hp.
  set (table := StdMap.insert image_id hash (hashes_table_ st)) in *.
  assert (Hasc' : StdMap.ascending table = true) by apply ascending_insert, Hasc.
  assert (Htf' : table_finite table = true)
    by (apply table_finite_insert; assumption).
  destruct (getBestCandidates_spec (calcSimilarities table hash images_to_ignore)
              num_candidates) as (chosen & Heq & Hcnt & Hsub & Hsorted).
  assert (Hc : candidates = map fst chosen /\ hashes_table_ st' = table).
  { destruct (getBestCandidates _ _) as [|c cs]; [discriminate|].
    injection Hproc as <- <- _. auto. }
  destruct Hc as [-> ->]. clear Hproc Heq.
  rewrite calcSimilarities_kept in Hsub, Hcnt by exact Hasc'.
  split.
  - apply chosen_sorted; [|exact Hsorted].
    intros p Hp. apply Hsub in Hp. apply in_map_iff in Hp as (e & <- & He).
    apply filter_In in He as [He _]. simpl. split.
    + unfold similarity_to. rewrite (In_find_ascending _ _ Hasc' He). reflexivity.
    + apply calcSimilarity_not_nan; [exact Hfin|].
      eapply (proj1 (forallb_forall _ _) Htf'), He.
  - rewrite length_map, Hcnt, length_map.
    assert (Hsz : to_size_t num_candidates = num_candidates)
      by (unfold to_size_t; apply Z.mod_small; lia).
    rewrite Hsz, Nat.min_comm. f_equal. f_equal.
    apply filter_ext_in. intros e He. apply kept_eligible; [exact Hfin|].
    eapply (proj1 (forallb_forall _ _) Htf'), He.
Qed.

End Claims.

(** * The code on concrete inputs *)

(** C1 (a defect of the code). With two projections and a 1x2 descriptor
    matrix the hash has four slots. The value of the pair [(1, 1)] is
    written to slot [1*1 = 1], not to the row-major slot [1*2 + 1 = 3],
    which keeps its initial [0.0]; the pairs [(0, 1)] and [(1, 0)] share
    slot 0, so the value of [(0, 1)] is lost. *)
Theorem calcHash_flat_index_collision :
  exists hash h' g',
    calcHash (PF := test_platform) desc_1x2 (Hash_new 2 2) O = Ok (hash, h', g')
    /\ length hash = 4%nat
    /\ hash !! (1 * 2 + 1)%nat = Some f_zero
    /\ scalar (max_desc_ h') (r_ h') desc_1x2 1 1 <> f_zero
    /\ hash !! 1%nat = Some (scalar (max_desc_ h') (r_ h') desc_1x2 1 1)
    /\ flat_index 0 1 = flat_index 1 0
    /\ hash !! (0 * 2 + 1)%nat <> Some (scalar (max_desc_ h') (r_ h') desc_1x2 0 1).
Proof.
  eexists _, _, _. split; [vm_compute; reflexivity|].
  vm_compute. repeat split; congruence.
Qed.

(** C2, as the specification words it, fails: with [num_proj = 0] the
    basis still holds its first vector and the hash of a matrix with one
    column has one slot, not [0 * 1]; with [num_proj = 3] and
    [max_desc = 1], [init] throws and no hash is returned. *)
Lemma calcHash_length_counterexample :
  (1 <= rows desc_2x1)%nat
  /\ (exists hash h' g',
        calcHash (PF := test_platform) desc_2x1 (Hash_new 0 1) O = Ok (hash, h', g')
        /\ length hash = 1%nat
        /\ length hash
           <> (Z.to_nat (num_proj_ (Hash_new 0 1)) * cols desc_2x1)%nat)
  /\ calcHash (PF := test_platform) desc_2x1 (Hash_new 3 1) O = Throw.
Proof.
  split; [concrete|]. split.
  - eexists _, _, _. split; [vm_compute; reflexivity|].
    split; [reflexivity|]. vm_compute. discriminate.
  - vm_compute. reflexivity.
Qed.

Lemma calcHash_length_witness :
  basis_ok (Hash_new 2 2) = true
  /\ (1 <= rows desc_1x2)%nat
  /\ exists hash h' g',
       calcHash (PF := test_platform) desc_1x2 (Hash_new 2 2) O = Ok (hash, h', g')
       /\ length hash = (Z.to_nat 2 * cols desc_1x2)%nat.
Proof.
  split; [reflexivity|]. split; [concrete|].
  apply (calcHash_length (PF := test_platform) desc_1x2 (Hash_new 2 2) O);
    [reflexivity|concrete|concrete|concrete].
Defined.

(** C3, as the specification words it, fails: with room for one descriptor
    and two rows, one row is retained and the sum is divided by 1, not by
    the original row count 2. *)
Lemma calcHash_not_divided_by_original_rows :
  exists hash h' g' g1,
    calcHash (PF := test_platform) desc_2x1 (Hash_new 1 1) O = Ok (hash, h', g')
    /\ max_desc_ h' < Z.of_nat (rows desc_2x1)
    /\ let adjusted_desc :=
         fst (adjust (PF := test_platform) desc_2x1 (Z.to_nat (max_desc_ h')) g1) in
       rows adjusted_desc = 1%nat
       /\ desc_sum (max_desc_ h') (nth 0 (r_ h') []) adjusted_desc 0 = fl 1
       /\ hash = [fdiv (fl 1) (fl 1)]
       /\ scalar_by_original_rows (max_desc_ h') (r_ h') adjusted_desc
            (rows desc_2x1) 0 0 = fdiv (fl 1) (fl 2)
       /\ hash !! flat_index 0 0
          <> Some (scalar_by_original_rows (max_desc_ h') (r_ h') adjusted_desc
                     (rows desc_2x1) 0 0).
Proof.
  eexists _, _, _, 1%nat. split; [vm_compute; reflexivity|].
  vm_compute. repeat split; congruence.
Qed.

Lemma calcHash_divides_by_retained_rows_witness :
  basis_ok (Hash_new 1 1) = true
  /\ max_desc_ (Hash_new 1 1) < Z.of_nat (rows desc_2x1)
  /\ exists hash h' g' adjusted_desc g1,
       calcHash (PF := test_platform) desc_2x1 (Hash_new 1 1) O = Ok (hash, h', g')
       /\ adjusted_desc
          = fst (adjust (PF := test_platform) desc_2x1
                        (Z.to_nat (max_desc_ (Hash_new 1 1))) g1)
       /\ rows adjusted_desc = Z.to_nat (max_desc_ (Hash_new 1 1))
       /\ length hash = (Z.to_nat (num_proj_ (Hash_new 1 1)) * cols desc_2x1)%nat
       /\ let quotient i n :=
            fdiv (desc_sum (max_desc_ (Hash_new 1 1)) (nth i (r_ h') [])
                           adjusted_desc n)
                 (float_of_int (max_desc_ (Hash_new 1 1))) in
          (forall i n,
             (i < Z.to_nat (num_proj_ (Hash_new 1 1)))%nat ->
             (n < cols desc_2x1)%nat ->
             (forall i' n',
                (i' < Z.to_nat (num_proj_ (Hash_new 1 1)))%nat ->
                (n' < cols desc_2x1)%nat ->
                later_pair i n i' n' -> flat_index i' n' <> flat_index i n) ->
             hash !! flat_index i n = Some (quotient i n))
          /\ ((1 <= cols desc_2x1)%nat ->
              hash !! flat_index (Z.to_nat (num_proj_ (Hash_new 1 1)) - 1)
                                 (cols desc_2x1 - 1)
              = Some (quotient (Z.to_nat (num_proj_ (Hash_new 1 1)) - 1)%nat
                               (cols desc_2x1 - 1)%nat))
          /\ (forall k,
                (k < Z.to_nat (num_proj_ (Hash_new 1 1)) * cols desc_2x1)%nat ->
                (forall i n,
                   (i < Z.to_nat (num_proj_ (Hash_new 1 1)))%nat ->
                   (n < cols desc_2x1)%nat ->
                   flat_index i n <> k) ->
                hash !! k = Some f_zero)
          /\ forall k v, hash !! k = Some v ->
               v = f_zero
               \/ exists i n,
                    (i < Z.to_nat (num_proj_ (Hash_new 1 1)))%nat
                    /\ (n < cols desc_2x1)%nat
                    /\ k = flat_index i n /\ v = quotient i n.
Proof.
  split; [reflexivity|]. split; [concrete|].
  apply (calcHash_divides_by_retained_rows (PF := test_platform)
           desc_2x1 (Hash_new 1 1) O);
    [reflexivity|concrete|concrete|concrete].
Defined.

Lemma process_empty_image_witness :
  image_empty (Platform := test_platform) image_none = true
  /\ process (PF := test_platform) 7%N image_none 3 [] (fst store_123) (snd store_123)
     = Ok (None, fst store_123, snd store_123).
Proof.
  split; [reflexivity|].
  apply (process_empty_image (PF := test_platform)). reflexivity.
Defined.

Lemma process_same_id_overwrites_witness :
  exists hash1 r1 st1 g1 hash2,
    stored_hash (PF := test_platform) image_a (Haloc_new 1 2) O = Some hash1
    /\ process (PF := test_platform) 1%N image_a 1 [] (Haloc_new 1 2) O
       = Ok (r1, st1, g1)
    /\ stored_hash (PF := test_platform) image_b st1 g1 = Some hash2
    /\ length (hashes_table_ st1) = 1%nat
    /\ exists r2 st2 g2,
         process (PF := test_platform) 1%N image_b 1 [] st1 g1 = Ok (r2, st2, g2)
         /\ length (hashes_table_ st2) = length (hashes_table_ st1)
         /\ StdMap.find 1%N (hashes_table_ st2) = Some hash2
         /\ forall k, k <> 1%N ->
              StdMap.find k (hashes_table_ st2)
              = StdMap.find k (hashes_table_ st1).
Proof.
  eexists _, _, _, _, _.
  split; [vm_compute; reflexivity|]. split; [vm_compute; reflexivity|].
  split; [vm_compute; reflexivity|]. split; [reflexivity|].
  eapply (process_same_id_overwrites (PF := test_platform)
            1%N image_a image_b 1 1 [] [] (Haloc_new 1 2) O);
    vm_compute; reflexivity.
Defined.

Lemma process_excludes_own_id_witness :
  StdMap.ascending (hashes_table_ (fst store_123)) = true
  /\ exists hash,
       stored_hash (PF := test_platform) image_b (fst store_123) (snd store_123)
       = Some hash
       /\ all_finite hash = true
       /\ exists r st' g',
            process (PF := test_platform) 4%N image_b 5 []
                    (fst store_123) (snd store_123) = Ok (r, st', g')
            /\ StdMap.find 4%N (hashes_table_ st') = Some hash
            /\ calcSimilarity hash hash = f_zero
            /\ forall candidates, r = Some candidates -> ~ In 4%N candidates.
Proof.
  split; [reflexivity|].
  eexists. split; [vm_compute; reflexivity|]. split; [reflexivity|].
  eapply (process_excludes_own_id (PF := test_platform) 4%N image_b 5 []
            (fst store_123) (snd store_123)); reflexivity.
Defined.

(** C7, as the specification words it, fails: the store holds the hashes
    of ids 1, 2, 3, the one of id 2 made from the descriptors [image_b];
    processing [image_b] again under id 4 with [num_candidates = 1]
    returns [[1]], not [[2]]. *)
Lemma process_identical_descriptors_counterexample :
  StdMap.keys (hashes_table_ (fst store_123)) = [1; 2; 3]%N
  /\ exists hash2 hs g',
       calcHash (PF := test_platform) image_b (hash_ (fst store_123))
                (snd store_123) = Ok (hash2, hs, g')
       /\ StdMap.find 2%N (hashes_table_ (fst store_123)) = Some hash2
       /\ calcSimilarity hash2 hash2 = f_zero
       /\ exists r st' g'' s1 s3,
            process (PF := test_platform) 4%N image_b 1 []
                    (fst store_123) (snd store_123) = Ok (r, st', g'')
            /\ calcSimilarities (hashes_table_ st') hash2 []
               = [(1%N, s1); (3%N, s3)]
            /\ flt s1 s3 = true
            /\ r = Some [1%N]
            /\ r <> Some [2%N].
Proof.
  split; [reflexivity|].
  eexists _, _, _. split; [vm_compute; reflexivity|].
  split; [reflexivity|]. split; [reflexivity|].
  eexists _, _, _, _, _. split; [vm_compute; reflexivity|].
  split; [vm_compute; reflexivity|].
  split; [reflexivity|]. split; [reflexivity|discriminate].
Qed.

Lemma process_identical_descriptors_excluded_witness :
  StdMap.keys (hashes_table_ (fst store_123)) = [1; 2; 3]%N
  /\ exists hash2,
       StdMap.find 2%N (hashes_table_ (fst store_123)) = Some hash2
       /\ all_finite hash2 = true
       /\ exists r st' g',
            process (PF := test_platform) 4%N image_b 1 []
                    (fst store_123) (snd store_123) = Ok (r, st', g')
            /\ kept hash2 [] (2%N, hash2) = false
            /\ ((r = None
                 /\ forall entry, In entry (hashes_table_ st') ->
                                  kept hash2 [] entry = false)
                \/ exists j hash_j,
                     r = Some [j] /\ j <> 2%N /\ j <> 4%N /\ In j [1; 3]%N
                     /\ StdMap.find j (hashes_table_ st') = Some hash_j
                     /\ kept hash2 [] (j, hash_j) = true
                     /\ forall entry,
                          In entry (hashes_table_ st') ->
                          kept hash2 [] entry = true ->
                          flt (calcSimilarity hash2 (snd entry))
                              (calcSimilarity hash2 hash_j) = false
                          /\ (all_finite hash_j = true ->
                              all_finite (snd entry) = true ->
                              fle (calcSimilarity hash2 hash_j)
                                  (calcSimilarity hash2 (snd entry)) = true)).
Proof.
  split; [reflexivity|].
  eexists. split; [vm_compute; reflexivity|]. split; [reflexivity|].
  eapply (process_identical_descriptors_excluded (PF := test_platform)
            4%N image_b (fst store_123) (snd store_123) (snd store_123));
    [reflexivity|reflexivity|vm_compute; lia|vm_compute; reflexivity
    |reflexivity|reflexivity|discriminate|reflexivity].
Defined.

(** C5, as the specification words it, fails: in a store of NaN hashes
    every similarity is NaN, which the filter [similarity <= 0.0] lets
    through. Processing an image under id 4 with [num_candidates = 2]
    returns [[1; 2]] although no entry has a positive similarity, and the
    similarities of 1 and 2 are not in [<=] order. *)
Lemma process_candidates_counterexample :
  StdMap.keys (hashes_table_ (fst store_nan)) = [1; 2; 3]%N
  /\ exists hash st' g',
       stored_hash (PF := test_platform) image_b (fst store_nan) (snd store_nan)
       = Some hash
       /\ process (PF := test_platform) 4%N image_b 2 []
                  (fst store_nan) (snd store_nan)
          = Ok (Some [1; 2]%N, st', g')
       /\ similarity_to (hashes_table_ st') hash 1%N = S754_nan
       /\ similarity_to (hashes_table_ st') hash 2%N = S754_nan
       /\ fle (similarity_to (hashes_table_ st') hash 1%N)
              (similarity_to (hashes_table_ st') hash 2%N) = false
       /\ List.filter (eligible hash []) (hashes_table_ st') = []
       /\ length [1; 2]%N
          <> Nat.min (Z.to_nat 2)
                     (length (List.filter (eligible hash []) (hashes_table_ st')))
       /\ ~ StronglySorted
              (fun a b => fle (similarity_to (hashes_table_ st') hash a)
                              (similarity_to (hashes_table_ st') hash b) = true)
              [1; 2]%N.
Proof.
  split; [reflexivity|].
  eexists _, _, _. split; [vm_compute; reflexivity|].
  split; [vm_compute; reflexivity|].
  split; [reflexivity|]. split; [reflexivity|]. split; [reflexivity|].
  split; [reflexivity|]. split; [vm_compute; lia|].
  intros Hs. inversion Hs as [|a l _ Hall]. subst.
  inversion Hall as [|b l' Hab _]. subst.
  vm_compute in Hab. discriminate.
Qed.

(** A negative [num_candidates] is read as a huge [size_t]: on the store of
    finite hashes every eligible id is returned, more than the minimum of
    [num_candidates] and the number of eligible ids. *)
Lemma process_negative_count_returns_all :
  exists hash st' g',
    stored_hash (PF := test_platform) image_b (fst store_123) (snd store_123)
    = Some hash
    /\ process (PF := test_platform) 4%N image_b (-1) []
               (fst store_123) (snd store_123)
       = Ok (Some [1; 3]%N, st', g')
    /\ length (List.filter (eligible hash []) (hashes_table_ st')) = 2%nat
    /\ Z.of_nat (length [1; 3]%N)
       <> Z.min (-1)
                (Z.of_nat (length (List.filter (eligible hash [])
                                               (hashes_table_ st')))).
Proof.
  eexists _, _, _. split; [vm_compute; reflexivity|].
  split; [vm_compute; reflexivity|]. split; [reflexivity|].
  vm_compute. discriminate.
Qed.

Lemma process_candidates_sorted_and_counted_witness :
  StdMap.ascending (hashes_table_ (fst store_123)) = true
  /\ table_finite (hashes_table_ (fst store_123)) = true
  /\ exists hash candidates st' g',
       stored_hash (PF := test_platform) image_b (fst store_123) (snd store_123)
       = Some hash
       /\ all_finite hash = true
       /\ process (PF := test_platform) 4%N image_b 5 []
                  (fst store_123) (snd store_123)
          = Ok (Some candidates, st', g')
       /\ candidates = [1; 3]%N
       /\ StronglySorted
            (fun a b => fle (similarity_to (hashes_table_ st') hash a)
                            (similarity_to (hashes_table_ st') hash b) = true)
            candidates
       /\ length candidates
          = Nat.min (Z.to_nat 5)
                    (length (List.filter (eligible hash [])
                                         (hashes_table_ st'))).
Proof.
  split; [reflexivity|]. split; [reflexivity|].
  eexists _, _, _, _.
  split; [vm_compute; reflexivity|]. split; [reflexivity|].
  split; [vm_compute; reflexivity|]. split; [reflexivity|].
  eapply (process_candidates_sorted_and_counted (PF := test_platform)
            4%N image_b 5 [] (fst store_123) (snd store_123));
    [reflexivity|reflexivity|lia|vm_compute; reflexivity|reflexivity
    |vm_compute; reflexivity].
Defined.

(** The distance between [(3, 0)] and [(0, 4)] is [5]. *)
Lemma calcSimilarity_3_4_5 :
  calcSimilarity [fl 3; fl 0] [fl 0; fl 4] = fl 5
  /\ euclidean_distance [fl 3; fl 0] [fl 0; fl 4] = fl 5.
Proof. split; vm_compute; reflexivity. Qed.

(** ** At the edge of the hypotheses *)

(** With [num_proj = 0] the basis still holds the first vector, and the
    hash of a matrix with one column has one slot. *)
Lemma calcHash_zero_projections :
  exists hash h' g',
    calcHash (PF := test_platform) desc_2x1 (Hash_new 0 1) O = Ok (hash, h', g')
    /\ length (r_ h') = 1%nat /\ length hash = 1%nat.
Proof. eexists _, _, _. split; [vm_compute; reflexivity|]. split; reflexivity. Qed.

(** With more projections than [max_desc + 1], [init] throws. *)
Lemma calcHash_too_many_projections :
  calcHash (PF := test_platform) desc_2x1 (Hash_new 3 1) O = Throw.
Proof. vm_compute. reflexivity. Qed.

(** C10, as the specification words it, fails: with [max_desc = 0] no row
    is retained, [desc_length] is [0.0], and the slot written holds
    [0.0/0.0]. The distance of that hash to itself is NaN, [NaN <= 0.0] is
    false, and [process] returns the id it was given. *)
Lemma process_nan_hash_returns_own_id :
  exists st' g',
    process (PF := test_platform) 7%N desc_2x1 1 [] (Haloc_new 1 0) O
    = Ok (Some [7%N], st', g')
    /\ hashes_table_ st' = [(7%N, [S754_nan])].
Proof. eexists _, _. split; vm_compute; reflexivity. Qed.

(** * Further properties of the code *)

(** ** [calcSimilarity] and [unitVector] *)

Lemma binary_round_aux_magnitude prec emax s1 s2 m e l :
  same_magnitude (binary_round_aux prec emax s1 m e l)
                 (binary_round_aux prec emax s2 m e l).
Proof.
  unfold binary_round_aux.
  destruct (shr_fexp prec emax m e l) as [mrs' e'].
  destruct (shr_fexp prec emax _ e' loc_Exact) as [mrs'' e''].
  destruct (shr_m mrs'') as [|p|p]; simpl; auto.
  destruct (e'' <=? emax - prec); simpl; auto.
Qed.

Lemma binary_round_magnitude prec emax s1 s2 m e :
  same_magnitude (binary_round prec emax s1 m e) (binary_round prec emax s2 m e).
Proof.
  unfold binary_round. destruct (shl_align m e _) as [mz ez].
  apply binary_round_aux_magnitude.
Qed.

Lemma binary_normalize_opp_magnitude prec emax z e sz :
  same_magnitude (binary_normalize prec emax z e sz)
                 (binary_normalize prec emax (- z) e sz).
Proof.
  destruct z as [|p|p]; simpl; auto; apply binary_round_magnitude.
Qed.

Lemma fsub_swap_magnitude x y : same_magnitude (fsub x y) (fsub y x).
Proof.
  unfold fsub.
  destruct x as [sx|sx| |sx mx ex]; destruct y as [sy|sy| |sy my ey];
    simpl; auto; try (destruct sx, sy; simpl; auto; fail).
  rewrite (Z.min_comm ey ex).
  match goal with |- same_magnitude (binary_normalize _ _ ?a _ _)
                                    (binary_normalize _ _ ?b _ _) =>
    replace b with (- a) by lia
  end.
  apply binary_normalize_opp_magnitude.
Qed.

Lemma to_double_magnitude u v :
  same_magnitude u v -> same_magnitude (to_double u) (to_double v).
Proof.
  destruct u as [su|su| |su mu eu]; destruct v as [sv|sv| |sv mv ev];
    simpl; try tauto.
  intros [-> ->]. apply binary_round_magnitude.
Qed.

Lemma dpow2_magnitude u v : same_magnitude u v -> dpow2 u = dpow2 v.
Proof.
  unfold dpow2, dmul.
  destruct u as [su|su| |su mu eu]; destruct v as [sv|sv| |sv mv ev];
    simpl; try tauto; intros H; rewrite ?xorb_nilpotent; try reflexivity.
  destruct H as [-> ->]. reflexivity.
Qed.

Lemma add_square_fsub_swap sim x y :
  add_square sim (fsub x y) = add_square sim (fsub y x).
Proof.
  unfold add_square. f_equal. f_equal.
  apply dpow2_magnitude, to_double_magnitude, fsub_swap_magnitude.
Qed.

Lemma sum_sq_diff_swap hash_a hash_b :
  length hash_a = length hash_b ->
  sum_sq_diff hash_a hash_b = sum_sq_diff hash_b hash_a.
Proof.
  intros Hlen. unfold sum_sq_diff. rewrite <- Hlen.
  generalize f_zero at 3 6 as acc. generalize (seq 0 (length hash_a)) as idx.
  induction idx as [|i idx IH]; intros acc; simpl; [reflexivity|].
  rewrite add_square_fsub_swap. apply IH.
Qed.

(** X8. [calcSimilarity] is symmetric: swapping the two hashes gives the
    same value, whatever their lengths and contents: NaN both ways, or the
    same number with the same sign. A NaN is one value here; its sign and
    payload bits are not modelled. *)
Theorem calcSimilarity_symmetric hash_a hash_b :
  calcSimilarity hash_a hash_b = calcSimilarity hash_b hash_a.
Proof.
  unfold calcSimilarity.
  destruct (length hash_a =? length hash_b)%nat eqn:E.
  - apply Nat.eqb_eq in E. rewrite (proj2 (Nat.eqb_eq _ _) (eq_sym E)). simpl.
    rewrite sum_sq_diff_swap by exact E. reflexivity.
  - apply Nat.eqb_neq in E.
    rewrite (proj2 (Nat.eqb_neq _ _) (fun H => E (eq_sym H))). reflexivity.
Qed.

Lemma add_square_nan_l x : add_square S754_nan x = S754_nan.
Proof. reflexivity. Qed.

Lemma add_square_nan_r sim : add_square sim S754_nan = S754_nan.
Proof. unfold add_square. destruct (to_double sim); reflexivity. Qed.

Lemma fsub_diag_not_finite x : is_finite x = false -> fsub x x = S754_nan.
Proof. destruct x as [s|s| |s m e]; simpl; try discriminate; try reflexivity.
  destruct s; reflexivity. Qed.

Lemma fold_self_diff hash idx :
  fold_left
    (fun sim i => add_square sim (fsub (nth i hash f_zero) (nth i hash f_zero)))
    idx f_zero
  = if forallb (fun i => is_finite (nth i hash f_zero)) idx then f_zero else S754_nan.
Proof.
  assert (Hnan : forall idx,
            fold_left
              (fun sim i => add_square sim (fsub (nth i hash f_zero) (nth i hash f_zero)))
              idx S754_nan = S754_nan).
  { clear idx. induction idx as [|i idx IH]; simpl; [reflexivity|exact IH]. }
  induction idx as [|i idx IH]; simpl; [reflexivity|].
  destruct (is_finite (nth i hash f_zero)) eqn:E; simpl.
  - rewrite fsub_diag by exact E. exact IH.
  - rewrite fsub_diag_not_finite by exact E. apply Hnan.
Qed.

Lemma forallb_shift (f : nat -> bool) l :
  forallb f (map S l) = forallb (fun i => f (S i)) l.
Proof. induction l as [|i l IH]; simpl; [reflexivity|rewrite IH; reflexivity]. Qed.

Lemma forallb_nth_seq hash :
  forallb (fun i => is_finite (nth i hash f_zero)) (seq 0 (length hash))
  = all_finite hash.
Proof.
  unfold all_finite. induction hash as [|x hash IH]; simpl; [reflexivity|].
  rewrite <- seq_shift, forallb_shift. simpl. rewrite IH. reflexivity.
Qed.

(** X9. The similarity of a hash to itself is [+0.0] when all its entries
    are finite numbers, and NaN as soon as one entry is NaN or infinite. *)
Theorem calcSimilarity_self hash :
  calcSimilarity hash hash = if all_finite hash then f_zero else S754_nan.
Proof.
  rewrite calcSimilarity_same_length by reflexivity.
  unfold sum_sq_diff. rewrite fold_self_diff, forallb_nth_seq.
  destruct (all_finite hash); reflexivity.
Qed.

Lemma fold_add_square_zeros x :
  forallb is_zero x = true -> fold_left add_square x f_zero = f_zero.
Proof.
  induction x as [|x0 x IH]; simpl; [reflexivity|].
  intros H. apply andb_true_iff in H as [H0 H].
  destruct x0 as [s| | |]; try discriminate. destruct s; exact (IH H).
Qed.

(** X10. [unitVector] does not guard a zero norm: on a vector of zeros
    every component of the result is [0.0/0.0], NaN. *)
Theorem unitVector_zero_norm x :
  forallb is_zero x = true ->
  unitVector x = map (fun _ => S754_nan) x.
Proof.
  intros H. unfold unitVector. rewrite fold_add_square_zeros by exact H.
  apply map_ext_in. intros a Ha.
  pose proof (proj1 (forallb_forall _ _) H a Ha) as Hz.
  destruct a as [s| | |]; try discriminate. destruct s; reflexivity.
Qed.

(** ** [init] and [calcHash] *)

Section HashMore.
Context {PF : Platform}.

Lemma basis_ok_vectors h :
  basis_ok h = true -> initialized_ h = true ->
  Forall (fun v => length v = Z.to_nat (max_desc_ h)) (r_ h).
Proof.
  unfold basis_ok. intros Hok Hini. rewrite Hini in Hok. simpl in Hok.
  apply andb_true_iff in Hok as [_ Hvec].
  apply List.Forall_forall. intros v Hv.
  apply Nat.eqb_eq. apply (proj1 (forallb_forall _ _) Hvec v Hv).
Qed.

(** X1. [init] returns exactly when [max_desc_] is not negative and
    [num_proj_], read as [uint], is at most [max_desc_ + 1]; otherwise it
    throws. When it returns, the object is initialised, its configuration is
    unchanged, and the basis holds [max(1, num_proj_)] vectors of
    [max_desc_] components each. *)
Theorem init_returns_iff h g :
  max_desc_ h < 2 ^ 31 ->
  ((exists h' g', init h g = Ok (h', g'))
   <-> 0 <= max_desc_ h /\ to_uint (num_proj_ h) <= max_desc_ h + 1)
  /\ forall h' g', init h g = Ok (h', g') ->
       initialized_ h' = true
       /\ num_proj_ h' = num_proj_ h /\ max_desc_ h' = max_desc_ h
       /\ length (r_ h') = Nat.max 1 (Z.to_nat (to_uint (num_proj_ h)))
       /\ Forall (fun v => length v = Z.to_nat (max_desc_ h)) (r_ h').
Proof.
  intros Hmax. pose proof (init_spec h g Hmax) as Hs.
  destruct (init h g) as [[h1 g1]|].
  - destruct Hs as (Hok & Hini & Hnp & Hmd & H0 & HU). split.
    + split; [intros _; lia|intros _; eauto].
    + intros h' g' [= <- <-].
      destruct (basis_ok_initialized h1 Hok Hini) as (_ & Hlen & _).
      pose proof (basis_ok_vectors h1 Hok Hini) as Hvec.
      rewrite Hnp in Hlen. rewrite Hmd in Hvec. auto.
  - split; [|discriminate].
    split; [intros (h' & g' & Heq); discriminate|lia].
Qed.

(** X2. A negative [num_proj_] makes [init] throw: the loop test
    [i < num_proj_] compares in [uint], so the loop runs until the size
    [max_desc_ - i] of the next random vector is negative. *)
Theorem init_negative_num_proj_throws h g :
  - 2 ^ 31 < num_proj_ h < 0 -> max_desc_ h < 2 ^ 31 ->
  init h g = Throw.
Proof.
  intros Hnp Hmax. pose proof (init_spec h g Hmax) as Hs.
  destruct (init h g) as [[h1 g1]|]; [|reflexivity].
  destruct Hs as (_ & _ & _ & _ & H0 & HU).
  assert (to_uint (num_proj_ h) = num_proj_ h + 2 ^ 32).
  { unfold to_uint. symmetry. apply Z.mod_unique with (q := -1); lia. }
  lia.
Qed.

(** X3. The basis is built once. After a call of [calcHash] that returns,
    the object is initialised; an object that was initialised before the
    call is unchanged; and every later call returns, without throwing, and
    leaves the object as it is. *)
Theorem calcHash_initialises_once desc1 h g hash1 h1 g1 :
  calcHash desc1 h g = Ok (hash1, h1, g1) ->
  initialized_ h1 = true
  /\ (initialized_ h = true -> h1 = h)
  /\ forall desc2 g2, exists hash2 g3,
       calcHash desc2 h1 g2 = Ok (hash2, h1, g3).
Proof.
  unfold calcHash. intros Hcall.
  assert (Hini : initialized_ h1 = true /\ (initialized_ h = true -> h1 = h)).
  { destruct (initialized_ h) eqn:E; simpl in Hcall.
    - destruct (rows desc1 =? 0)%nat.
      + injection Hcall as _ <- _. auto.
      + destruct (adjust desc1 _ g) as [a g2]. injection Hcall as _ <- _. auto.
    - unfold init in Hcall.
      destruct (initProjections h g) as [[h0 g0]|]; simpl in Hcall; [|discriminate].
      destruct (rows desc1 =? 0)%nat.
      + injection Hcall as _ <- _. split; [reflexivity|discriminate].
      + destruct (adjust desc1 _ g0) as [a g2]. injection Hcall as _ <- _.
        split; [reflexivity|discriminate]. }
  destruct Hini as [Hini Hsame]. repeat split; auto.
  intros desc2 g2. rewrite Hini. simpl.
  destruct (rows desc2 =? 0)%nat; [eauto|].
  destruct (adjust desc2 _ g2) as [a g3]. eauto.
Qed.


(** X5. On an initialised object and a matrix with no more rows than the
    basis vectors have components, [calcHash] draws no random number: the
    generator state comes back unchanged and the hash does not depend on
    it. *)
Theorem calcHash_draws_nothing desc h g1 g2 :
  initialized_ h = true ->
  (rows desc <= length (nth 0 (r_ h) []))%nat ->
  exists hash,
    calcHash desc h g1 = Ok (hash, h, g1)
    /\ calcHash desc h g2 = Ok (hash, h, g2).
Proof.
  intros Hini Hfit. eexists. split; apply calcHash_no_subsampling; assumption.
Qed.

Lemma map_nth_seq_take {A} (l : list A) (d : A) n :
  (n <= length l)%nat -> map (fun i => nth i l d) (seq 0 n) = firstn n l.
Proof.
  revert n. induction l as [|x l IH]; intros [|n] Hn; simpl in *; try reflexivity; try lia.
  rewrite <- seq_shift, map_map. simpl. rewrite IH by lia. reflexivity.
Qed.

(** X6. Subsampling is without replacement. When the matrix has more
    than [cap] rows and [random_shuffle] permutes its argument, the adjusted
    matrix holds [cap] rows of the original at pairwise distinct row
    indices, and keeps the column count. *)
Theorem adjust_without_replacement desc cap g :
  (forall l g', Permutation (fst (random_shuffle l g')) l) ->
  (cap < rows desc)%nat ->
  exists indices,
    List.NoDup indices /\ length indices = cap
    /\ (forall i, In i indices -> (i < rows desc)%nat)
    /\ cols (fst (adjust desc cap g)) = cols desc
    /\ data (fst (adjust desc cap g))
       = map (fun i => nth i (data desc) []) indices.
Proof.
  intros Hperm Hcap. unfold adjust.
  rewrite (proj2 (Nat.ltb_lt _ _) Hcap).
  specialize (Hperm (seq 0 (rows desc)) g).
  destruct (random_shuffle (seq 0 (rows desc)) g) as [shuffled g1]. simpl in *.
  assert (Hlen : length shuffled = rows desc)
    by (rewrite (Permutation_length Hperm), length_seq; reflexivity).
  exists (firstn cap shuffled). repeat split.
  - assert (Hnd : List.NoDup shuffled).
    { eapply Permutation_NoDup; [apply Permutation_sym, Hperm|apply seq_NoDup]. }
    rewrite <- (firstn_skipn cap shuffled) in Hnd.
    apply NoDup_app_remove_r in Hnd. exact Hnd.
  - rewrite length_firstn. lia.
  - intros i Hi.
    assert (Hi' : In i shuffled)
      by (rewrite <- (firstn_skipn cap shuffled); apply in_or_app; left; exact Hi).
    apply (Permutation_in _ Hperm) in Hi'. apply in_seq in Hi'. lia.
  - replace (rows desc - (rows desc - cap))%nat with cap by lia.
    rewrite <- (map_nth_seq_take shuffled O cap) by lia.
    rewrite map_map. reflexivity.
Qed.

(** X7. Every slot of the hash with an index above
    [(num_proj - 1) * (D - 1)] is never written and holds [0.0]: the
    indices [i*n] the loops produce do not go further. *)
Theorem calcHash_high_slots_zero desc h g :
  basis_ok h = true ->
  1 <= num_proj_ h <= max_desc_ h + 1 -> max_desc_ h < 2 ^ 31 ->
  (1 <= rows desc)%nat ->
  exists hash h' g',
    calcHash desc h g = Ok (hash, h', g')
    /\ forall k,
         ((Z.to_nat (num_proj_ h) - 1) * (cols desc - 1) < k)%nat ->
         (k < Z.to_nat (num_proj_ h) * cols desc)%nat ->
         hash !! k = Some f_zero.
Proof.
  intros Hok Hnp Hmax Hrows.
  pose proof (calcHash_spec desc h g Hok Hmax) as Hs.
  assert (Hu : to_uint (num_proj_ h) = num_proj_ h)
    by (unfold to_uint; apply Z.mod_small; lia).
  destruct (calcHash desc h g) as [[[hash h'] g']|]; [|rewrite Hu in Hs; lia].
  exists hash, h', g'. split; [reflexivity|].
  destruct Hs as (Hok' & Hini' & Hnp' & Hmd' & _ & Hhash).
  destruct (rows desc =? 0)%nat eqn:E; [apply Nat.eqb_eq in E; lia|].
  destruct Hhash as (adjusted_desc & g1 & _ & Hcols & _ & ->).
  destruct (basis_ok_initialized h' Hok' Hini') as (_ & Hlen & _).
  rewrite Hnp', Hu in Hlen.
  assert (Hlen' : length (r_ h') = Z.to_nat (num_proj_ h)) by lia.
  clear Hlen. rename Hlen' into Hlen.
  intros k Hlo Hhi.
  destruct (project (max_desc_ h) (r_ h') adjusted_desc !! k) as [v|] eqn:Ek.
  - apply project_slot in Ek as Hv.
    destruct Hv as [->|(i & n & Hi & Hn & -> & _)]; [reflexivity|].
    pose proof (flat_index_le i n) as Hle.
    rewrite Hlen in Hi. rewrite Hcols in Hn. nia.
  - apply lookup_ge_None in Ek. rewrite length_project, Hlen, Hcols in Ek. lia.
Qed.

End HashMore.

(** ** [getBestCandidates] and [process] *)

Lemma flt_fle_trans a b c : flt a b = true -> fle b c = true -> flt a c = true.
Proof.
  unfold flt, fle, SFltb, SFleb.
  destruct a as [sa|sa| |sa ma ea]; destruct b as [sb|sb| |sb mb eb];
    destruct c as [sc|sc| |sc mc ec]; simpl; try discriminate; try reflexivity;
    try (destruct sa; (discriminate || destruct sb; (discriminate || destruct sc; (discriminate || reflexivity)))).
  all: destruct sa, sb, sc; try discriminate; try reflexivity.
  all: fold (Pos.compare ma mb); fold (Pos.compare mb mc); fold (Pos.compare ma mc).
  all: destruct (Z.compare_spec ea eb), (Z.compare_spec eb ec), (Z.compare_spec ea ec);
    try discriminate; try reflexivity; try lia; subst.
  all: destruct (Pos.compare_spec ma mb), (Pos.compare_spec mb mc), (Pos.compare_spec ma mc);
    simpl; try discriminate; try reflexivity; try lia.
Qed.

Section MapMore.
Context {V : Type}.
Implicit Types (m : StdMap.t V) (k j : N) (v : V).

Lemma In_erase_ne k m p : In p m -> fst p <> k -> In p (StdMap.erase k m).
Proof.
  induction m as [|[k' v'] rest IH]; simpl; [tauto|].
  intros Hin Hne. destruct (k =? k')%N eqn:E.
  - apply N.eqb_eq in E. subst k'.
    destruct Hin as [<-|Hin]; [simpl in Hne; congruence|exact Hin].
  - destruct Hin as [<-|Hin]; [left; reflexivity|right; auto].
Qed.

Lemma ascending_from_erase lo k m :
  StdMap.ascending_from lo m = true ->
  StdMap.ascending_from lo (StdMap.erase k m) = true.
Proof.
  revert lo. induction m as [|[k' v'] rest IH]; simpl; intros lo Hasc; [reflexivity|].
  apply andb_true_iff in Hasc as [Hlo Hrest].
  destruct (k =? k')%N.
  - destruct rest as [|[k'' v''] rest']; simpl in *; [reflexivity|].
    apply andb_true_iff in Hrest as [Hk Hr]. rewrite Hr, andb_true_r.
    apply N.ltb_lt in Hlo, Hk. apply N.ltb_lt. lia.
  - simpl. rewrite Hlo. simpl. apply IH, Hrest.
Qed.

Lemma ascending_erase k m :
  StdMap.ascending m = true -> StdMap.ascending (StdMap.erase k m) = true.
Proof.
  destruct m as [|[k' v'] rest]; simpl; [reflexivity|]. intros Hasc.
  destruct (k =? k')%N.
  - eapply ascending_from_ascending, Hasc.
  - simpl. apply ascending_from_erase, Hasc.
Qed.

Lemma ascending_keys_differ m p q :
  StdMap.ascending m = true -> In p m -> In q m -> fst p = fst q -> p = q.
Proof.
  intros Hasc Hp Hq Hk.
  pose proof (In_find_ascending m p Hasc Hp) as H1.
  pose proof (In_find_ascending m q Hasc Hq) as H2.
  rewrite Hk, H2 in H1. destruct p, q; simpl in *. congruence.
Qed.

Lemma erase_key_gone k m p :
  StdMap.ascending m = true -> In p (StdMap.erase k m) -> fst p <> k.
Proof.
  induction m as [|[k' v'] rest IH]; simpl; [tauto|]. intros Hasc Hin.
  destruct (k =? k')%N eqn:E.
  - apply N.eqb_eq in E. subst k'.
    pose proof (ascending_from_lt _ _ _ Hasc Hin). lia.
  - apply N.eqb_neq in E. destruct Hin as [<-|Hin]; [simpl; congruence|].
    apply IH; [eapply ascending_from_ascending, Hasc|exact Hin].
Qed.

Lemma ascending_split m pre r post :
  StdMap.ascending m = true -> m = pre ++ r :: post ->
  forall q, In q post -> (fst r < fst q)%N.
Proof.
  revert m. induction pre as [|[k v] pre IH]; intros m Hasc -> q Hq; simpl in *.
  - destruct r as [kr vr]. eapply ascending_from_lt; [exact Hasc|exact Hq].
  - eapply IH; [|reflexivity|exact Hq].
    eapply ascending_from_ascending, Hasc.
Qed.

Lemma find_None_length_insert k v m :
  StdMap.find k m = None -> length (StdMap.insert k v m) = S (length m).
Proof.
  induction m as [|[k' v'] rest IH]; simpl; [reflexivity|].
  destruct (k =? k')%N eqn:E; [discriminate|]. intros Hf.
  destruct (k <? k')%N; simpl; [reflexivity|]. rewrite IH by exact Hf. reflexivity.
Qed.

Lemma length_insert_ge k v m : (length m <= length (StdMap.insert k v m))%nat.
Proof.
  induction m as [|[k' v'] rest IH]; simpl; [lia|].
  destruct (k <? k')%N; simpl; [lia|].
  destruct (k =? k')%N; simpl; lia.
Qed.

End MapMore.

Section HalocMore.
Context {PF : Platform}.

Lemma calcSimilarities_entries table hash images_to_ignore p :
  In p (calcSimilarities table hash images_to_ignore) ->
  existsb (N.eqb (fst p)) images_to_ignore = false
  /\ fle (to_double (snd p)) (double_lit 0) = false
  /\ exists h, In (fst p, h) table /\ snd p = calcSimilarity hash h.
Proof.
  unfold calcSimilarities.
  set (Q := fun (tbl : list (N * list float)) (p : N * float) =>
              existsb (N.eqb (fst p)) images_to_ignore = false
              /\ fle (to_double (snd p)) (double_lit 0) = false
              /\ exists h, In (fst p, h) tbl /\ snd p = calcSimilarity hash h).
  assert (Hgen : forall rest seen acc,
            (forall p, In p acc -> Q seen p) ->
            forall p,
              In p (fold_left
                      (fun similarities hash_pair =>
                         if existsb (N.eqb (fst hash_pair)) images_to_ignore
                         then similarities
                         else
                           let similarity := calcSimilarity hash (snd hash_pair) in
                           if fle (to_double similarity) (double_lit 0)
                           then similarities
                           else StdMap.insert (fst hash_pair) similarity similarities)
                      rest acc) ->
              Q (seen ++ rest) p).
  { induction rest as [|[k h] rest IH]; intros seen acc Hacc q Hq.
    - simpl in Hq. rewrite app_nil_r. apply Hacc, Hq.
    - cbn [fold_left fst snd] in Hq.
      replace (seen ++ (k, h) :: rest) with ((seen ++ [(k, h)]) ++ rest)
        by (rewrite <- app_assoc; reflexivity).
      assert (Hweak : forall p0, Q seen p0 -> Q (seen ++ [(k, h)]) p0).
      { intros p0 (H1 & H2 & h0 & Hin & Hv). repeat split; auto.
        exists h0. split; [apply in_or_app; left; exact Hin|exact Hv]. }
      destruct (existsb (N.eqb k) images_to_ignore) eqn:E1.
      { eapply IH; [|exact Hq]. intros p0 Hp0. apply Hweak, Hacc, Hp0. }
      cbv zeta in Hq.
      destruct (fle (to_double (calcSimilarity hash h)) (double_lit 0)) eqn:E2.
      { eapply IH; [|exact Hq]. intros p0 Hp0. apply Hweak, Hacc, Hp0. }
      eapply IH; [|exact Hq]. intros p0 Hp0.
      apply In_insert_inv in Hp0 as [->|Hp0]; [|apply Hweak, Hacc, Hp0].
      unfold Q. cbn [fst snd]. repeat split; auto.
      exists h. split; [apply in_or_app; right; left; reflexivity|reflexivity]. }
  intros Hp. apply (Hgen table [] [] (fun _ (H : In _ []) => match H with end) p Hp).
Qed.

Lemma loop_picked num_candidates fuel : forall similarities candidates,
  getBestCandidates_loop fuel similarities num_candidates candidates
  = candidates ++ map fst (picked fuel similarities num_candidates (length candidates)).
Proof.
  induction fuel as [|fuel IH]; intros similarities candidates; simpl.
  - destruct (min_element similarities); [|rewrite app_nil_r; reflexivity].
    destruct (_ <? _); rewrite app_nil_r; reflexivity.
  - destruct (min_element similarities) as [min_sim|]; [|rewrite app_nil_r; reflexivity].
    destruct (_ <? _); [|rewrite app_nil_r; reflexivity].
    rewrite IH, length_app, <- app_assoc. simpl.
    replace (length candidates + 1)%nat with (S (length candidates)) by lia.
    reflexivity.
Qed.

Lemma getBestCandidates_picked similarities num_candidates :
  getBestCandidates similarities num_candidates
  = map fst (picked (length similarities) similarities num_candidates O).
Proof. unfold getBestCandidates. rewrite loop_picked. reflexivity. Qed.

Lemma picked_incl num_candidates fuel : forall similarities count p,
  In p (picked fuel similarities num_candidates count) -> In p similarities.
Proof.
  induction fuel as [|fuel IH]; intros similarities count p; simpl.
  - destruct (min_element similarities); [destruct (_ <? _)|]; intros [].
  - destruct (min_element similarities) as [min_sim|] eqn:Emin; [|intros []].
    destruct (_ <? _); [|intros []].
    intros [<-|Hp]; [apply (min_element_spec _ _ Emin)|].
    eapply In_erase, IH, Hp.
Qed.

Lemma picked_NoDup num_candidates fuel : forall similarities count,
  StdMap.ascending similarities = true ->
  List.NoDup (map fst (picked fuel similarities num_candidates count)).
Proof.
  induction fuel as [|fuel IH]; intros similarities count Hasc; simpl.
  - destruct (min_element similarities); [destruct (_ <? _)|]; constructor.
  - destruct (min_element similarities) as [min_sim|] eqn:Emin; [|constructor].
    destruct (_ <? _); [|constructor]. simpl. constructor.
    + intros Hin. apply in_map_iff in Hin as (q & Hq & Hin).
      apply picked_incl in Hin. eapply erase_key_gone; eauto.
    + apply IH, ascending_erase, Hasc.
Qed.

(** Every entry left in the map is no smaller than every entry taken. *)
Lemma picked_best num_candidates fuel : forall similarities count q,
  In q similarities ->
  ~ In (fst q) (map fst (picked fuel similarities num_candidates count)) ->
  forall p, In p (picked fuel similarities num_candidates count) ->
            flt (snd q) (snd p) = false.
Proof.
  induction fuel as [|fuel IH]; intros similarities count q Hq Hout p; simpl in *.
  - destruct (min_element similarities); [destruct (_ <? _)|]; intros [].
  - destruct (min_element similarities) as [min_sim|] eqn:Emin; [|intros []].
    destruct (_ <? _); [|intros []]. simpl in Hout.
    intros [<-|Hp].
    + apply (min_element_spec _ _ Emin), Hq.
    + eapply IH; [apply In_erase_ne; [exact Hq|]| |exact Hp].
      * intros Heq. apply Hout. left. symmetry. exact Heq.
      * intros Hin. apply Hout. right. exact Hin.
Qed.

Lemma picked_length num_candidates fuel : forall similarities count,
  (length similarities <= fuel)%nat ->
  length (picked fuel similarities num_candidates count)
  = Nat.min (length similarities) (Z.to_nat (to_size_t num_candidates) - count).
Proof.
  induction fuel as [|fuel IH]; intros similarities count Hfuel.
  - destruct similarities; [reflexivity|simpl in Hfuel; lia].
  - cbn [picked].
    destruct (min_element similarities) as [min_sim|] eqn:Emin.
    2:{ apply min_element_None in Emin. subst. reflexivity. }
    destruct (min_element_spec _ _ Emin) as [Hin _].
    pose proof (length_erase similarities min_sim Hin) as Hlen.
    destruct (Z.of_nat count <? to_size_t num_candidates) eqn:E.
    + apply Z.ltb_lt in E. simpl. rewrite IH by lia. lia.
    + apply Z.ltb_ge in E. simpl. lia.
Qed.

(** Among numbers, [min_element] returns the first of the smallest
    entries: every entry before it is strictly larger. *)
Lemma min_element_from_first (l : list (N * float)) :
  forall smallest : N * float,
  (forall q : N * float, In q (smallest :: l) -> is_nan (snd q) = false) ->
  exists pre post,
    smallest :: l = pre ++ min_element_from smallest l :: post
    /\ forall q, In q pre -> flt (snd (min_element_from smallest l)) (snd q) = true.
Proof.
  induction l as [|p rest IH]; intros smallest Hnum.
  - exists [], []. split; [reflexivity|intros q []].
  - cbn [min_element_from].
    destruct (flt (snd p) (snd smallest)) eqn:Hp.
    + destruct (IH p) as (pre & post & Heq & Hpre).
      { intros q Hq. apply Hnum. right. exact Hq. }
      exists (smallest :: pre), post. split; [simpl; rewrite Heq at 1; reflexivity|].
      intros q [<-|Hq]; [|apply Hpre, Hq].
      destruct (min_element_from_spec rest p) as (_ & [->|Hc] & _);
        [exact Hp|eapply flt_trans; eassumption].
    + destruct (IH smallest) as (pre & post & Heq & Hpre).
      { intros q [<-|Hq]; apply Hnum; [left|right; right]; auto. }
      destruct pre as [|x pre].
      * simpl in Heq. injection Heq as Hr Hrest.
        exists [], (p :: rest). split; [simpl; rewrite <- Hr; reflexivity|intros q []].
      * simpl in Heq. injection Heq as <- Hrest.
        exists (smallest :: p :: pre), post. split; [simpl; rewrite Hrest at 1; reflexivity|].
        assert (Hs : flt (snd (min_element_from smallest rest)) (snd smallest) = true)
          by (apply Hpre; left; reflexivity).
        intros q [<-|[<-|Hq]]; [exact Hs| |apply Hpre; right; exact Hq].
        eapply flt_fle_trans; [exact Hs|].
        apply flt_false_fle; [| |exact Hp]; apply Hnum; [left|right; left]; reflexivity.
Qed.

Lemma min_element_first (m : list (N * float)) (r : N * float) :
  StdMap.ascending m = true ->
  (forall q : N * float, In q m -> is_nan (snd q) = false) ->
  min_element m = Some r ->
  forall q, In q m -> fst q <> fst r ->
            flt (snd r) (snd q) = true \/ (fst r < fst q)%N.
Proof.
  destruct m as [|p rest]; [discriminate|]. intros Hasc Hnum [= <-] q Hq Hne.
  destruct (min_element_from_first rest p Hnum) as (pre & post & Heq & Hpre).
  assert (Hq' : In q (pre ++ min_element_from p rest :: post))
    by (rewrite <- Heq; exact Hq).
  clear Hq. apply in_app_or in Hq' as [Hq|[<-|Hq]].
  - left. apply Hpre, Hq.
  - contradiction Hne. reflexivity.
  - right. eapply ascending_split; [exact Hasc|exact Heq|exact Hq].
Qed.

Lemma picked_ties num_candidates fuel : forall similarities count,
  StdMap.ascending similarities = true ->
  (forall q, In q similarities -> is_nan (snd q) = false) ->
  StronglySorted (fun p q => flt (snd p) (snd q) = true \/ (fst p < fst q)%N)
                 (picked fuel similarities num_candidates count).
Proof.
  induction fuel as [|fuel IH]; intros similarities count Hasc Hnum; simpl.
  - destruct (min_element similarities); [destruct (_ <? _)|]; constructor.
  - destruct (min_element similarities) as [min_sim|] eqn:Emin; [|constructor].
    destruct (_ <? _); [|constructor]. constructor.
    + apply IH; [apply ascending_erase, Hasc|].
      intros q Hq. eapply Hnum, In_erase, Hq.
    + apply List.Forall_forall. intros q Hq.
      apply picked_incl in Hq.
      eapply min_element_first; eauto using In_erase.
      eapply erase_key_gone; eauto.
Qed.


Lemma ascending_from_kept lo (f : N * list float -> float) keep table :
  StdMap.ascending_from lo table = true ->
  StdMap.ascending_from lo
    (map (fun entry => (fst entry, f entry)) (List.filter keep table)) = true.
Proof.
  revert lo. induction table as [|[k h] rest IH]; intros lo Hasc; simpl in *;
    [reflexivity|].
  apply andb_true_iff in Hasc as [Hlo Hrest].
  destruct (keep (k, h)); simpl.
  - rewrite Hlo. simpl. apply IH, Hrest.
  - apply IH. clear IH. revert Hrest. generalize rest. intros l.
    destruct l as [|[k' h'] l]; simpl; [reflexivity|].
    intros H. apply andb_true_iff in H as [Hk Hl]. rewrite Hl, andb_true_r.
    apply N.ltb_lt in Hlo, Hk. apply N.ltb_lt. lia.
Qed.

Lemma calcSimilarities_ascending table hash images_to_ignore :
  StdMap.ascending table = true ->
  StdMap.ascending (calcSimilarities table hash images_to_ignore) = true.
Proof.
  intros Hasc. rewrite calcSimilarities_kept by exact Hasc.
  destruct table as [|[k h] rest]; simpl; [reflexivity|].
  simpl in Hasc.
  pose proof (ascending_from_kept k (fun e => calcSimilarity hash (snd e))
                (kept hash images_to_ignore) rest Hasc) as Hk.
  destruct (kept hash images_to_ignore (k, h)); simpl; [exact Hk|].
  eapply ascending_from_ascending, Hk.
Qed.

(** What a call that returns candidates did. *)
Lemma process_Some_inv
    image_id image num_candidates images_to_ignore st g candidates st' g' :
  process image_id image num_candidates images_to_ignore st g
  = Ok (Some candidates, st', g') ->
  exists hash,
    stored_hash image st g = Some hash
    /\ hashes_table_ st' = StdMap.insert image_id hash (hashes_table_ st)
    /\ candidates
       = getBestCandidates
           (calcSimilarities (hashes_table_ st') hash images_to_ignore)
           num_candidates.
Proof.
  intros Hproc.
  destruct (stored_hash image st g) as [hash|] eqn:Hst.
  - destruct (process_stored image_id image num_candidates images_to_ignore st g
                hash Hst) as (hs & g1 & _ & _ & _ & Hp).
    rewrite Hp in Hproc. exists hash. split; [reflexivity|].
    destruct (getBestCandidates _ _) as [|c cs] eqn:Eg; [discriminate|].
    injection Hproc as <- <- _. simpl. rewrite Eg. auto.
  - exfalso. unfold stored_hash, process in *.
    destruct (image_empty image); [discriminate|].
    destruct (calcHash (calcDesc st image) (hash_ st) g) as [[[h hs] g1]|];
      simpl in *; [|discriminate].
    destruct h; discriminate.
Qed.

Lemma value_of_picked similarities p :
  StdMap.ascending similarities = true -> In p similarities ->
  value_of similarities (fst p) = snd p.
Proof.
  intros Hasc Hp. unfold value_of.
  rewrite (In_find_ascending _ _ Hasc Hp). reflexivity.
Qed.

Lemma sorted_map_fst (val : N -> float) (R : float -> float -> N -> N -> Prop) l :
  (forall p, In p l -> val (fst p) = snd p) ->
  StronglySorted (fun p q => R (snd p) (snd q) (fst p) (fst q)) l ->
  StronglySorted (fun a b => R (val a) (val b) a b) (map fst l).
Proof.
  intros Hval Hs. induction Hs as [|p rest Hrest IH Hp]; simpl; constructor.
  - apply IH. intros q Hq. apply Hval. right. exact Hq.
  - apply List.Forall_forall. intros b Hb. apply in_map_iff in Hb as (q & <- & Hq).
    rewrite (Hval p (or_introl eq_refl)), (Hval q (or_intror Hq)).
    apply (proj1 (List.Forall_forall _ _) Hp q Hq).
Qed.

(** X11. [getBestCandidates] returns the best entries: no entry left out
    has a similarity smaller than that of a returned candidate. *)
Theorem getBestCandidates_takes_the_smallest similarities num_candidates c q :
  StdMap.ascending similarities = true ->
  In c (getBestCandidates similarities num_candidates) ->
  In q similarities ->
  ~ In (fst q) (getBestCandidates similarities num_candidates) ->
  flt (snd q) (value_of similarities c) = false.
Proof.
  rewrite getBestCandidates_picked. intros Hasc Hc Hq Hout.
  apply in_map_iff in Hc as (p & <- & Hp).
  rewrite (value_of_picked similarities p Hasc (picked_incl _ _ _ _ _ Hp)).
  eapply picked_best; eauto.
Qed.

(** X12. Ties are broken by ascending id. Among similarities that are
    numbers, of two returned candidates the earlier one has the strictly
    smaller similarity or, failing that, the smaller id. *)
Theorem getBestCandidates_breaks_ties_by_id similarities num_candidates :
  StdMap.ascending similarities = true ->
  forallb (fun q => negb (is_nan (snd q))) similarities = true ->
  StronglySorted
    (fun a b => flt (value_of similarities a) (value_of similarities b) = true
                \/ (a < b)%N)
    (getBestCandidates similarities num_candidates).
Proof.
  intros Hasc Hnum. rewrite getBestCandidates_picked.
  apply (sorted_map_fst (value_of similarities)
           (fun x y a b => flt x y = true \/ (a < b)%N)).
  - intros p Hp. apply value_of_picked; [exact Hasc|]. eapply picked_incl, Hp.
  - apply picked_ties; [exact Hasc|].
    intros q Hq. apply negb_true_iff.
    apply (proj1 (forallb_forall _ _) Hnum q Hq).
Qed.

(** X13. A negative [num_candidates] is no limit: converted to [size_t]
    it exceeds the size of any map, and [getBestCandidates] returns the id
    of every entry. *)
Theorem getBestCandidates_negative_count similarities num_candidates :
  StdMap.ascending similarities = true ->
  - 2 ^ 31 <= num_candidates < 0 ->
  Z.of_nat (length similarities) < 2 ^ 32 ->
  length (getBestCandidates similarities num_candidates) = length similarities
  /\ forall k, In k (StdMap.keys similarities) ->
               In k (getBestCandidates similarities num_candidates).
Proof.
  intros Hasc Hn Hlen. rewrite getBestCandidates_picked.
  assert (Hsz : to_size_t num_candidates = num_candidates + 2 ^ 64).
  { unfold to_size_t. symmetry. apply Z.mod_unique with (q := -1); lia. }
  assert (Hl : length (map fst (picked (length similarities) similarities
                                       num_candidates 0))
               = length similarities).
  { rewrite length_map, picked_length by lia. rewrite Hsz. lia. }
  split; [exact Hl|].
  apply NoDup_length_incl.
  - apply picked_NoDup, Hasc.
  - unfold StdMap.keys. rewrite Hl, length_map. lia.
  - intros k Hk. apply in_map_iff in Hk as (p & <- & Hp).
    unfold StdMap.keys. apply in_map. eapply picked_incl, Hp.
Qed.

(** X14. An id of [images_to_ignore] is never among the candidates
    [process] returns. *)
Theorem process_never_returns_ignored
    image_id image num_candidates images_to_ignore st g candidates st' g' :
  process image_id image num_candidates images_to_ignore st g
  = Ok (Some candidates, st', g') ->
  forall k, In k candidates -> ~ In k images_to_ignore.
Proof.
  intros Hproc k Hk Hig.
  destruct (process_Some_inv _ _ _ _ _ _ _ _ _ Hproc) as (hash & _ & _ & ->).
  rewrite getBestCandidates_picked in Hk.
  apply in_map_iff in Hk as (p & <- & Hp). apply picked_incl in Hp.
  apply calcSimilarities_entries in Hp as (Hex & _).
  assert (Ht : existsb (N.eqb (fst p)) images_to_ignore = true).
  { apply existsb_exists. exists (fst p). split; [exact Hig|apply N.eqb_refl]. }
  congruence.
Qed.

(** X15. Every candidate [process] returns is the id of a stored hash of
    the same length as the new hash: a hash of another length compares to
    the sentinel [-1.0] and is filtered out. *)
Theorem process_candidates_are_comparable
    image_id image num_candidates images_to_ignore st g candidates st' g' :
  StdMap.ascending (hashes_table_ st) = true ->
  process image_id image num_candidates images_to_ignore st g
  = Ok (Some candidates, st', g') ->
  exists hash,
    StdMap.find image_id (hashes_table_ st') = Some hash
    /\ forall k, In k candidates ->
         exists h, StdMap.find k (hashes_table_ st') = Some h
                   /\ length h = length hash.
Proof.
  intros Hasc Hproc.
  destruct (process_Some_inv _ _ _ _ _ _ _ _ _ Hproc) as (hash & _ & Ht & ->).
  exists hash. split; [rewrite Ht; apply find_insert_eq|].
  assert (Hasc' : StdMap.ascending (hashes_table_ st') = true)
    by (rewrite Ht; apply ascending_insert, Hasc).
  intros k Hk. rewrite getBestCandidates_picked in Hk.
  apply in_map_iff in Hk as (p & <- & Hp). apply picked_incl in Hp.
  apply calcSimilarities_entries in Hp as (_ & Hpos & h & Hin & Hv).
  exists h. split; [apply (In_find_ascending _ (fst p, h) Hasc' Hin)|].
  destruct (Nat.eq_dec (length hash) (length h)) as [He|Hne]; [auto|].
  rewrite Hv, calcSimilarity_other_length in Hpos by exact Hne. discriminate.
Qed.

(** X16. The candidates [process] returns are pairwise distinct. *)
Theorem process_candidates_distinct
    image_id image num_candidates images_to_ignore st g candidates st' g' :
  StdMap.ascending (hashes_table_ st) = true ->
  process image_id image num_candidates images_to_ignore st g
  = Ok (Some candidates, st', g') ->
  List.NoDup candidates.
Proof.
  intros Hasc Hproc.
  destruct (process_Some_inv _ _ _ _ _ _ _ _ _ Hproc) as (hash & _ & Ht & ->).
  rewrite getBestCandidates_picked.
  apply picked_NoDup, calcSimilarities_ascending.
  rewrite Ht. apply ascending_insert, Hasc.
Qed.

(** X17. For a non-negative [num_candidates], [process] returns at most
    [num_candidates] ids. *)
Theorem process_at_most_num_candidates
    image_id image num_candidates images_to_ignore st g candidates st' g' :
  0 <= num_candidates < 2 ^ 31 ->
  process image_id image num_candidates images_to_ignore st g
  = Ok (Some candidates, st', g') ->
  Z.of_nat (length candidates) <= num_candidates.
Proof.
  intros Hn Hproc.
  destruct (process_Some_inv _ _ _ _ _ _ _ _ _ Hproc) as (hash & _ & _ & ->).
  rewrite getBestCandidates_picked, length_map, picked_length by lia.
  assert (Hsz : to_size_t num_candidates = num_candidates)
    by (unfold to_size_t; apply Z.mod_small; lia).
  rewrite Hsz. lia.
Qed.

(** X18. With [num_candidates = 0] a call of [process] that gets to the
    storage step stores the hash under [image_id] and returns the absent
    result. *)
Theorem process_zero_candidates
    image_id image images_to_ignore st g hash :
  stored_hash image st g = Some hash ->
  exists st' g',
    process image_id image 0 images_to_ignore st g = Ok (None, st', g')
    /\ StdMap.find image_id (hashes_table_ st') = Some hash.
Proof.
  intros Hst.
  destruct (process_stored image_id image 0 images_to_ignore st g hash Hst)
    as (hs & g1 & _ & _ & _ & Hp).
  rewrite Hp. clear Hp.
  assert (Hnil : getBestCandidates
                   (calcSimilarities
                      (StdMap.insert image_id hash (hashes_table_ st))
                      hash images_to_ignore) 0 = []).
  { apply length_zero_iff_nil.
    rewrite getBestCandidates_picked, length_map, picked_length by lia.
    change (Z.to_nat (to_size_t 0)) with O. lia. }
  rewrite Hnil. eexists _, _. split; [reflexivity|]. simpl. apply find_insert_eq.
Qed.

(** X19. A call of [process] that gets to the storage step with an
    [image_id] not yet in the table adds exactly one entry, which holds the
    new hash; the entries of the other ids are untouched. *)
Theorem process_new_id_adds_entry
    image_id image num_candidates images_to_ignore st g hash :
  StdMap.find image_id (hashes_table_ st) = None ->
  stored_hash image st g = Some hash ->
  exists r st' g',
    process image_id image num_candidates images_to_ignore st g = Ok (r, st', g')
    /\ length (hashes_table_ st') = S (length (hashes_table_ st))
    /\ StdMap.find image_id (hashes_table_ st') = Some hash
    /\ forall k, k <> image_id ->
         StdMap.find k (hashes_table_ st') = StdMap.find k (hashes_table_ st).
Proof.
  intros Hnew Hst.
  destruct (process_stored image_id image num_candidates images_to_ignore st g
              hash Hst) as (hs & g1 & _ & _ & _ & Hp).
  eexists _, _, _. split; [exact Hp|]. simpl. split; [|split].
  - apply find_None_length_insert, Hnew.
  - apply find_insert_eq.
  - intros k Hk. apply find_insert_ne. congruence.
Qed.

(** X20. [process] never removes an entry: after a call that returns,
    the table is at least as long as before, every id stored before is
    still stored, and only the hash of [image_id] can have changed. *)
Theorem process_never_removes
    image_id image num_candidates images_to_ignore st g r st' g' :
  process image_id image num_candidates images_to_ignore st g = Ok (r, st', g') ->
  (length (hashes_table_ st) <= length (hashes_table_ st'))%nat
  /\ forall k h, StdMap.find k (hashes_table_ st) = Some h ->
       exists h', StdMap.find k (hashes_table_ st') = Some h'
                  /\ (k <> image_id -> h' = h).
Proof.
  unfold process.
  destruct (image_empty image).
  { intros [= _ <- _]. split; [lia|]. eauto. }
  destruct (calcHash (calcDesc st image) (hash_ st) g) as [[[hash hs] g1]|];
    simpl; [|discriminate].
  destruct hash as [|x hash].
  { intros [= _ <- _]. simpl. split; [lia|]. eauto. }
  assert (Hins : (length (hashes_table_ st)
                  <= length (StdMap.insert image_id (x :: hash) (hashes_table_ st)))%nat
                 /\ forall k h, StdMap.find k (hashes_table_ st) = Some h ->
                      exists h', StdMap.find k
                                   (StdMap.insert image_id (x :: hash) (hashes_table_ st))
                                 = Some h'
                                 /\ (k <> image_id -> h' = h)).
  { split; [apply length_insert_ge|]. intros k h Hk.
    destruct (N.eq_dec image_id k) as [->|Hne].
    - rewrite find_insert_eq. eexists. split; [reflexivity|congruence].
    - rewrite find_insert_ne by exact Hne. eauto. }
  destruct (getBestCandidates _ _); intros [= _ <- _]; exact Hins.
Qed.

(** X21. When the feature extractor returns a matrix without rows or
    without columns for a non-empty image, [process] on a validly configured
    object returns the absent result and leaves the table as it was; the
    hash object has been initialised by the call. *)
Theorem process_without_descriptors
    image_id image num_candidates images_to_ignore st g :
  basis_ok (hash_ st) = true ->
  1 <= num_proj_ (hash_ st) <= max_desc_ (hash_ st) + 1 ->
  max_desc_ (hash_ st) < 2 ^ 31 ->
  image_empty image = false ->
  rows (calcDesc st image) = O \/ cols (calcDesc st image) = O ->
  exists st' g',
    process image_id image num_candidates images_to_ignore st g = Ok (None, st', g')
    /\ hashes_table_ st' = hashes_table_ st
    /\ initialized_ (hash_ st') = true.
Proof.
  intros Hok Hnp Hmax Hne Hdesc. unfold process. rewrite Hne.
  pose proof (calcHash_spec (calcDesc st image) (hash_ st) g Hok Hmax) as Hs.
  assert (Hu : to_uint (num_proj_ (hash_ st)) = num_proj_ (hash_ st))
    by (unfold to_uint; apply Z.mod_small; lia).
  destruct (calcHash (calcDesc st image) (hash_ st) g) as [[[hash hs] g1]|];
    [|rewrite Hu in Hs; lia].
  destruct Hs as (_ & Hini & _ & _ & _ & Hhash). simpl.
  assert (Hnil : hash = []).
  { destruct (rows (calcDesc st image) =? 0)%nat eqn:E; [exact Hhash|].
    apply Nat.eqb_neq in E.
    destruct Hhash as (a & g2 & _ & Hc & _ & ->).
    destruct Hdesc as [H0|H0]; [contradiction|].
    apply length_zero_iff_nil. rewrite length_project, Hc, H0. lia. }
  subst hash. eexists _, _. split; [reflexivity|]. simpl. auto.
Qed.

(** X22. The feature extractor is a function here: [detectAndCompute]
    returns its descriptors. Once it has returned, [process] throws exactly
    when the image is not empty, the hash object is not yet initialised,
    and the configuration makes [init] throw ([max_desc_] negative, or
    [num_proj_] as [uint] above [max_desc_ + 1]). Exceptions raised inside
    the extractor are outside this statement. *)
Theorem process_throws_iff
    image_id image num_candidates images_to_ignore st g :
  basis_ok (hash_ st) = true ->
  max_desc_ (hash_ st) < 2 ^ 31 ->
  process image_id image num_candidates images_to_ignore st g = Throw
  <-> image_empty image = false
      /\ initialized_ (hash_ st) = false
      /\ (max_desc_ (hash_ st) < 0
          \/ max_desc_ (hash_ st) + 1 < to_uint (num_proj_ (hash_ st))).
Proof.
  intros Hok Hmax. unfold process.
  destruct (image_empty image).
  { split; [discriminate|intros [H _]; discriminate]. }
  pose proof (calcHash_spec (calcDesc st image) (hash_ st) g Hok Hmax) as Hs.
  unfold calcHash in *.
  destruct (initialized_ (hash_ st)) eqn:Hini.
  - simpl in *. split; [|intros (_ & H & _); discriminate].
    destruct (rows (calcDesc st image) =? 0)%nat; simpl; [discriminate|].
    destruct (adjust _ _ g) as [a g2]. simpl.
    destruct (project _ _ a); [discriminate|].
    destruct (getBestCandidates _ _); discriminate.
  - pose proof (init_spec (hash_ st) g Hmax) as Hi.
    destruct (init (hash_ st) g) as [[h1 g1]|]; simpl in *.
    + destruct Hi as (_ & _ & _ & _ & H0 & HU).
      split; [|intros (_ & _ & H); lia].
      destruct (rows (calcDesc st image) =? 0)%nat; simpl; [discriminate|].
      destruct (adjust _ _ g1) as [a g2]. simpl.
      destruct (project _ _ a); [discriminate|].
      destruct (getBestCandidates _ _); discriminate.
    + split; [intros _; tauto|reflexivity].
Qed.

(** X23. On an empty table [process] never returns candidates: a call
    that stores a hash of finite numbers returns the absent result and
    leaves the table with that single entry. *)
Theorem process_first_image
    image_id image num_candidates images_to_ignore st g hash :
  hashes_table_ st = [] ->
  stored_hash image st g = Some hash ->
  all_finite hash = true ->
  exists st' g',
    process image_id image num_candidates images_to_ignore st g = Ok (None, st', g')
    /\ hashes_table_ st' = [(image_id, hash)].
Proof.
  intros Hempty Hst Hfin.
  destruct (process_stored image_id image num_candidates images_to_ignore st g
              hash Hst) as (hs & g1 & _ & _ & _ & Hp).
  rewrite Hp, Hempty. clear Hp. simpl.
  destruct (getBestCandidates _ _) as [|c cs] eqn:Eg.
  - eexists _, _. split; reflexivity.
  - exfalso.
    assert (Hc : In c (getBestCandidates
                         (calcSimilarities [(image_id, hash)] hash images_to_ignore)
                         num_candidates)) by (rewrite Eg; left; reflexivity).
    pose proof (candidates_in_table [(image_id, hash)] hash images_to_ignore
                  num_candidates c eq_refl Hc) as Hk.
    simpl in Hk. destruct Hk as [<-|[]].
    eapply (identical_hash_not_candidate [(image_id, hash)] hash images_to_ignore
              num_candidates image_id eq_refl Hfin); [|exact Hc].
    simpl. rewrite N.eqb_refl. reflexivity.
Qed.

End HalocMore.

(** ** The further properties on concrete inputs *)

Lemma init_returns_iff_witness :
  max_desc_ (Hash_new 2 2) < 2 ^ 31
  /\ exists h' g',
       init (PF := test_platform) (Hash_new 2 2) O = Ok (h', g')
       /\ length (r_ h') = 2%nat
       /\ Forall (fun v => length v = 2%nat) (r_ h').
Proof.
  split; [concrete|].
  destruct (init_returns_iff (PF := test_platform) (Hash_new 2 2) O)
    as [[_ Hex] Hshape]; [concrete|].
  destruct Hex as (h' & g' & Heq); [concrete|].
  exists h', g'. split; [exact Heq|].
  destruct (Hshape h' g' Heq) as (_ & _ & _ & Hlen & Hvec).
  split; [exact Hlen|exact Hvec].
Defined.

Lemma init_negative_num_proj_throws_witness :
  - 2 ^ 31 < num_proj_ (Hash_new (-1) 2) < 0
  /\ init (PF := test_platform) (Hash_new (-1) 2) O = Throw.
Proof.
  split; [concrete|].
  apply (init_negative_num_proj_throws (PF := test_platform)); concrete.
Defined.

Lemma calcHash_initialises_once_witness :
  exists hash1 h1 g1,
    calcHash (PF := test_platform) desc_1x2 (Hash_new 2 2) O = Ok (hash1, h1, g1)
    /\ initialized_ h1 = true
    /\ (initialized_ (Hash_new 2 2) = true -> h1 = Hash_new 2 2)
    /\ forall desc2 g2, exists hash2 g3,
         calcHash (PF := test_platform) desc2 h1 g2 = Ok (hash2, h1, g3).
Proof.
  eexists _, _, _. split; [vm_compute; reflexivity|].
  eapply (calcHash_initialises_once (PF := test_platform) desc_1x2 (Hash_new 2 2) O).
  vm_compute. reflexivity.
Defined.


Lemma calcHash_draws_nothing_witness :
  initialized_ (hash_ (fst store_123)) = true
  /\ (rows image_b <= length (nth 0 (r_ (hash_ (fst store_123))) []))%nat
  /\ exists hash,
       calcHash (PF := test_platform) image_b (hash_ (fst store_123)) 0%nat
       = Ok (hash, hash_ (fst store_123), 0%nat)
       /\ calcHash (PF := test_platform) image_b (hash_ (fst store_123)) 7%nat
          = Ok (hash, hash_ (fst store_123), 7%nat).
Proof.
  split; [reflexivity|]. split; [concrete|].
  apply (calcHash_draws_nothing (PF := test_platform)); concrete.
Defined.

Lemma adjust_without_replacement_witness :
  (forall l g', Permutation (fst (random_shuffle (Platform := test_platform) l g')) l)
  /\ (1 < rows desc_2x1)%nat
  /\ exists indices,
       List.NoDup indices /\ length indices = 1%nat
       /\ (forall i, In i indices -> (i < rows desc_2x1)%nat)
       /\ cols (fst (adjust (PF := test_platform) desc_2x1 1 O)) = cols desc_2x1
       /\ data (fst (adjust (PF := test_platform) desc_2x1 1 O))
          = map (fun i => nth i (data desc_2x1) []) indices.
Proof.
  assert (Hperm : forall l g',
            Permutation (fst (random_shuffle (Platform := test_platform) l g')) l).
  { intros l g'. simpl. apply Permutation_sym, Permutation_rev. }
  split; [exact Hperm|]. split; [concrete|].
  apply (adjust_without_replacement (PF := test_platform) desc_2x1 1 O Hperm).
  concrete.
Defined.

Lemma calcHash_high_slots_zero_witness :
  basis_ok (Hash_new 2 2) = true
  /\ (1 <= rows desc_1x2)%nat
  /\ exists hash h' g',
       calcHash (PF := test_platform) desc_1x2 (Hash_new 2 2) O = Ok (hash, h', g')
       /\ forall k,
            ((Z.to_nat (num_proj_ (Hash_new 2 2)) - 1) * (cols desc_1x2 - 1) < k)%nat ->
            (k < Z.to_nat (num_proj_ (Hash_new 2 2)) * cols desc_1x2)%nat ->
            hash !! k = Some f_zero.
Proof.
  split; [reflexivity|]. split; [concrete|].
  apply (calcHash_high_slots_zero (PF := test_platform) desc_1x2 (Hash_new 2 2) O);
    concrete.
Defined.

Lemma unitVector_zero_norm_witness :
  forallb is_zero [f_zero; S754_zero true] = true
  /\ unitVector [f_zero; S754_zero true] = [S754_nan; S754_nan].
Proof.
  split; [reflexivity|].
  apply (unitVector_zero_norm [f_zero; S754_zero true]). reflexivity.
Defined.

Lemma getBestCandidates_takes_the_smallest_witness :
  getBestCandidates sims_321 2 = [2; 3]%N
  /\ StdMap.ascending sims_321 = true
  /\ flt (snd (1%N, fl 3)) (value_of sims_321 3%N) = false.
Proof.
  split; [reflexivity|]. split; [reflexivity|].
  apply (getBestCandidates_takes_the_smallest sims_321 2 3%N (1%N, fl 3));
    evaluate.
Defined.

Lemma getBestCandidates_breaks_ties_by_id_witness :
  getBestCandidates sims_tie 3 = [2; 3; 1]%N
  /\ StdMap.ascending sims_tie = true
  /\ StronglySorted
       (fun a b => flt (value_of sims_tie a) (value_of sims_tie b) = true
                   \/ (a < b)%N)
       (getBestCandidates sims_tie 3).
Proof.
  split; [reflexivity|]. split; [reflexivity|].
  apply (getBestCandidates_breaks_ties_by_id sims_tie 3); reflexivity.
Defined.

Lemma getBestCandidates_negative_count_witness :
  StdMap.ascending sims_321 = true
  /\ length (getBestCandidates sims_321 (-1)) = length sims_321
  /\ forall k, In k (StdMap.keys sims_321) -> In k (getBestCandidates sims_321 (-1)).
Proof.
  split; [reflexivity|].
  apply (getBestCandidates_negative_count sims_321 (-1)); evaluate.
Defined.

Lemma process_never_returns_ignored_witness :
  exists candidates st' g',
    process (PF := test_platform) 4%N image_b 5 [1%N]
            (fst store_123) (snd store_123) = Ok (Some candidates, st', g')
    /\ candidates = [3%N]
    /\ forall k, In k candidates -> ~ In k [1%N].
Proof.
  eexists _, _, _. split; [vm_compute; reflexivity|]. split; [reflexivity|].
  eapply (process_never_returns_ignored (PF := test_platform) 4%N image_b 5 [1%N]
            (fst store_123) (snd store_123)).
  vm_compute. reflexivity.
Defined.

Lemma process_candidates_are_comparable_witness :
  StdMap.ascending (hashes_table_ (fst store_123)) = true
  /\ exists candidates st' g',
       process (PF := test_platform) 4%N image_b 5 []
               (fst store_123) (snd store_123) = Ok (Some candidates, st', g')
       /\ exists hash,
            StdMap.find 4%N (hashes_table_ st') = Some hash
            /\ forall k, In k candidates ->
                 exists h, StdMap.find k (hashes_table_ st') = Some h
                           /\ length h = length hash.
Proof.
  split; [reflexivity|].
  eexists _, _, _. split; [vm_compute; reflexivity|].
  eapply (process_candidates_are_comparable (PF := test_platform) 4%N image_b 5 []
            (fst store_123) (snd store_123)); [reflexivity|].
  vm_compute. reflexivity.
Defined.

Lemma process_candidates_distinct_witness :
  StdMap.ascending (hashes_table_ (fst store_123)) = true
  /\ exists candidates st' g',
       process (PF := test_platform) 4%N image_b 5 []
               (fst store_123) (snd store_123) = Ok (Some candidates, st', g')
       /\ List.NoDup candidates.
Proof.
  split; [reflexivity|].
  eexists _, _, _. split; [vm_compute; reflexivity|].
  eapply (process_candidates_distinct (PF := test_platform) 4%N image_b 5 []
            (fst store_123) (snd store_123)); [reflexivity|].
  vm_compute. reflexivity.
Defined.

Lemma process_at_most_num_candidates_witness :
  exists candidates st' g',
    process (PF := test_platform) 4%N image_b 1 []
            (fst store_123) (snd store_123) = Ok (Some candidates, st', g')
    /\ Z.of_nat (length candidates) <= 1.
Proof.
  eexists _, _, _. split; [vm_compute; reflexivity|].
  eapply (process_at_most_num_candidates (PF := test_platform) 4%N image_b 1 []
            (fst store_123) (snd store_123)); [lia|].
  vm_compute. reflexivity.
Defined.

Lemma process_zero_candidates_witness :
  exists hash,
    stored_hash (PF := test_platform) image_b (fst store_123) (snd store_123)
    = Some hash
    /\ exists st' g',
         process (PF := test_platform) 4%N image_b 0 []
                 (fst store_123) (snd store_123) = Ok (None, st', g')
         /\ StdMap.find 4%N (hashes_table_ st') = Some hash.
Proof.
  eexists. split; [vm_compute; reflexivity|].
  apply (process_zero_candidates (PF := test_platform) 4%N image_b []
           (fst store_123) (snd store_123)).
  vm_compute. reflexivity.
Defined.

Lemma process_new_id_adds_entry_witness :
  StdMap.find 4%N (hashes_table_ (fst store_123)) = None
  /\ exists hash,
       stored_hash (PF := test_platform) image_b (fst store_123) (snd store_123)
       = Some hash
       /\ exists r st' g',
            process (PF := test_platform) 4%N image_b 1 []
                    (fst store_123) (snd store_123) = Ok (r, st', g')
            /\ length (hashes_table_ st') = S (length (hashes_table_ (fst store_123)))
            /\ StdMap.find 4%N (hashes_table_ st') = Some hash
            /\ forall k, k <> 4%N ->
                 StdMap.find k (hashes_table_ st')
                 = StdMap.find k (hashes_table_ (fst store_123)).
Proof.
  split; [reflexivity|].
  eexists. split; [vm_compute; reflexivity|].
  apply (process_new_id_adds_entry (PF := test_platform) 4%N image_b 1 []
           (fst store_123) (snd store_123)); vm_compute; reflexivity.
Defined.

Lemma process_never_removes_witness :
  exists r st' g',
    process (PF := test_platform) 2%N image_a 1 []
            (fst store_123) (snd store_123) = Ok (r, st', g')
    /\ (length (hashes_table_ (fst store_123)) <= length (hashes_table_ st'))%nat
    /\ forall k h, StdMap.find k (hashes_table_ (fst store_123)) = Some h ->
         exists h', StdMap.find k (hashes_table_ st') = Some h'
                    /\ (k <> 2%N -> h' = h).
Proof.
  eexists _, _, _. split; [vm_compute; reflexivity|].
  eapply (process_never_removes (PF := test_platform) 2%N image_a 1 []
            (fst store_123) (snd store_123)).
  vm_compute. reflexivity.
Defined.

Lemma process_without_descriptors_witness :
  basis_ok (hash_ (Haloc_new 1 2)) = true
  /\ image_empty (Platform := blank_platform) image_a = false
  /\ rows (calcDesc (PF := blank_platform) (Haloc_new 1 2) image_a) = O
  /\ exists st' g',
       process (PF := blank_platform) 1%N image_a 1 [] (Haloc_new 1 2) O
       = Ok (None, st', g')
       /\ hashes_table_ st' = hashes_table_ (Haloc_new 1 2)
       /\ initialized_ (hash_ st') = true.
Proof.
  split; [reflexivity|]. split; [reflexivity|]. split; [reflexivity|].
  apply (process_without_descriptors (PF := blank_platform) 1%N image_a 1 []
           (Haloc_new 1 2) O); concrete.
Defined.

Lemma process_throws_iff_witness :
  basis_ok (hash_ (Haloc_new 3 1)) = true
  /\ max_desc_ (hash_ (Haloc_new 3 1)) + 1 < to_uint (num_proj_ (hash_ (Haloc_new 3 1)))
  /\ process (PF := test_platform) 1%N image_a 1 [] (Haloc_new 3 1) O = Throw.
Proof.
  split; [reflexivity|]. split; [concrete|].
  apply (process_throws_iff (PF := test_platform) 1%N image_a 1 [] (Haloc_new 3 1) O);
    [reflexivity|concrete|].
  split; [reflexivity|]. split; [reflexivity|]. right. concrete.
Defined.

Lemma process_first_image_witness :
  hashes_table_ (Haloc_new 1 2) = []
  /\ exists hash,
       stored_hash (PF := test_platform) image_a (Haloc_new 1 2) O = Some hash
       /\ all_finite hash = true
       /\ exists st' g',
            process (PF := test_platform) 1%N image_a 1 [] (Haloc_new 1 2) O
            = Ok (None, st', g')
            /\ hashes_table_ st' = [(1%N, hash)].
Proof.
  split; [reflexivity|].
  eexists. split; [vm_compute; reflexivity|]. split; [reflexivity|].
  apply (process_first_image (PF := test_platform) 1%N image_a 1 []
           (Haloc_new 1 2) O); [reflexivity|vm_compute; reflexivity|reflexivity].
Defined.
